(** * Fedify: outbound delivery and lazy property resolution

    A shallow embedding of two parts of the Fedify sources:

    - [federation/send.ts]: [extractInboxes] (the inbox target map) and
      [sendActivity] (key validation, Integrity Proofs, Linked-Data
      Signature, transport signature, delivery and response handling);
    - [codegen/property.ts]: the accessors that [generateProperty] emits for
      every non-scalar property of a vocabulary class ([xId], [xIds],
      [getX], [getXs], [#fetchX] and [#x_fromJsonLd]).

    External collaborators (the signing functions, the JSON-LD serializer,
    [fetch], the document loader and the candidate types' parsers) are the
    members of two interfaces, [SendEnv] and [ResolverEnv]; every call of one
    of them is recorded as an event, so that statements about order and about
    the absence of I/O are statements about event lists. *)

From stdpp Require Import gmap strings list fin_maps pretty.

Set Warnings "-register-all,-clear-no-such-hyp".

(** ** Values shared by both files *)

(** A WHATWG [URL], reduced to the two getters the sources read. *)
Record URL := mkURL { href : string; origin : string }.

#[global] Instance URL_eq_dec : EqDecision URL.
Proof. solve_decision. Defined.

(** JavaScript exceptions.  The sources distinguish [TypeError] (tested with
    [instanceof]) from every other error. *)
Inductive exn :=
  | TypeError (msg : string)
  | Error (msg : string).

#[global] Instance exn_eq_dec : EqDecision exn.
Proof. solve_decision. Defined.

(** A JSON value, as produced by [toJsonLd] and kept in [_cachedJsonLd].
    An object is the list of its own properties. *)
Inductive Json :=
  | JNull
  | JBool (b : bool)
  | JNum (n : Z)
  | JStr (s : string)
  | JArr (items : list Json)
  | JObj (props : list (string * Json)).

(** [obj[key]] on the own properties of an object ([undefined] is [None]). *)
Fixpoint props_get (key : string) (props : list (string * Json)) : option Json :=
  match props with
  | [] => None
  | (k, v) :: rest => if String.eqb k key then Some v else props_get key rest
  end.

(** [key in v] for a value that passed [v != null && typeof v === "object"].
    Arrays answer [false] for every name the generated code asks about. *)
Definition has_key (key : string) (v : Json) : bool :=
  match v with
  | JObj props => bool_decide (is_Some (props_get key props))
  | _ => false
  end.

(** [v != null && typeof v === "object"] *)
Definition is_object (v : Json) : bool :=
  match v with
  | JArr _ | JObj _ => true
  | _ => false
  end.

(** The newline character of the template literals. *)
Definition nl : string := String (Ascii.ascii_of_nat 10) EmptyString.

(** [Array.prototype.join] on strings. *)
Fixpoint join (sep : string) (l : list string) : string :=
  match l with
  | [] => ""
  | [x] => x
  | x :: rest => x +:+ sep +:+ join sep rest
  end.

(** ** Computations that emit events and may throw

    [M Ev A] is the outcome of running an [async] function to completion: the
    events it emitted, in order, and either the exception it threw or its
    value. *)
Definition M (Ev A : Type) : Type := list Ev * (exn + A).

Definition ret {Ev A} (a : A) : M Ev A := ([], inr a).
Definition throw {Ev A} (e : exn) : M Ev A := ([], inl e).
Definition bind {Ev A B} (m : M Ev A) (f : A → M Ev B) : M Ev B :=
  match m.2 with
  | inl e => (m.1, inl e)
  | inr a => (m.1 ++ (f a).1, (f a).2)
  end.
(** A call of a collaborator: the event, then its outcome. *)
Definition call {Ev A} (ev : Ev) (outcome : exn + A) : M Ev A := ([ev], outcome).
Definition log {Ev} (ev : Ev) : M Ev () := ([ev], inr ()).

Declare Scope js_scope.
Delimit Scope js_scope with js.
Notation "x <- m ;; k" := (bind m (fun x => k))
  (at level 100, m at next level, right associativity) : js_scope.
Notation "m ;;; k" := (bind m (fun _ => k))
  (at level 100, right associativity) : js_scope.
Open Scope js_scope.

(** ** federation/send.ts *)

Module Send.

(** *** extractInboxes *)

Record Endpoints := { sharedInbox : option URL }.

(** [Recipient] of vocab/actor.ts: [id], [inboxId] and the optional
    [endpoints]. *)
Record Recipient := {
  recipient_id : option URL;
  inboxId : option URL;
  endpoints : option Endpoints
}.

Record ExtractInboxesParameters := {
  recipients : list Recipient;
  preferSharedInbox : option bool;
  excludeBaseUris : option (list URL)
}.

(** [preferSharedInbox ? recipient.endpoints?.sharedInbox ?? recipient.inboxId
                       : recipient.inboxId] *)
Definition chosen_inbox (prefer : option bool) (recipient : Recipient) : option URL :=
  if default false prefer then
    match endpoints recipient ≫= sharedInbox with
    | Some u => Some u
    | None => inboxId recipient
    end
  else inboxId recipient.

(** [excludeBaseUris != null && excludeBaseUris.some((u) => u.origin == inbox.origin)] *)
Definition is_excluded (exclude : option (list URL)) (inbox : URL) : bool :=
  match exclude with
  | None => false
  | Some us => existsb (fun u => String.eqb (origin u) (origin inbox)) us
  end.

(** One iteration of the [for] loop over the recipients. *)
Definition extractInboxes_step (prefer : option bool) (exclude : option (list URL))
    (inboxes : gmap string (gset string)) (recipient : Recipient)
    : gmap string (gset string) :=
  match chosen_inbox prefer recipient, recipient_id recipient with
  | Some inbox, Some rid =>
      if is_excluded exclude inbox then inboxes
      else
        (* inboxes[inbox.href] ??= new Set(); *)
        let inboxes' :=
          match inboxes !! href inbox with
          | Some _ => inboxes
          | None => <[href inbox := ∅]> inboxes
          end in
        (* inboxes[inbox.href].add(recipient.id.href); *)
        alter (fun s => s ∪ {[href rid]}) (href inbox) inboxes'
  | _, _ => inboxes
  end.

Definition extractInboxes (p : ExtractInboxesParameters) : gmap string (gset string) :=
  foldl (extractInboxes_step (preferSharedInbox p) (excludeBaseUris p)) ∅ (recipients p).

(** The (inbox, identity) pair that the loop body adds for a recipient, if
    any. *)
Definition kept (p : ExtractInboxesParameters) (recipient : Recipient)
    : option (string * string) :=
  inbox ← chosen_inbox (preferSharedInbox p) recipient;
  rid ← recipient_id recipient;
  if is_excluded (excludeBaseUris p) inbox then None
  else Some (href inbox, href rid).

(** *** The reference definition, in the specification's words

    The chosen inbox is the shared inbox when [preferSharedInbox] is set and
    one is present, otherwise the personal inbox. *)
Definition chosen_ref (p : ExtractInboxesParameters) (recipient : Recipient)
    : option URL :=
  match preferSharedInbox p, endpoints recipient ≫= sharedInbox with
  | Some true, Some shared => Some shared
  | _, _ => inboxId recipient
  end.

(** An inbox is excluded when its origin is the origin of some exclusion
    URL. *)
Definition excluded_ref (p : ExtractInboxesParameters) (inbox : URL) : Prop :=
  Exists (fun u => origin u = origin inbox) (default [] (excludeBaseUris p)).

(** A recipient without a chosen inbox or without an identity is skipped,
    and so is one whose chosen inbox is excluded; a remaining one gives its
    identity URL under the exact URL of its inbox. *)
Definition kept_ref (p : ExtractInboxesParameters) (recipient : Recipient)
    : option (string * string) :=
  match chosen_ref p recipient, recipient_id recipient with
  | Some inbox, Some rid =>
      if decide (excluded_ref p inbox) then None else Some (href inbox, href rid)
  | _, _ => None
  end.

(** The identities of the remaining recipients whose inbox URL is [key]. *)
Definition targets (p : ExtractInboxesParameters) (key : string) : gset string :=
  list_to_set
    (snd <$> filter (fun kv => kv.1 = key) (omap (kept_ref p) (recipients p))).

(** One entry per inbox URL of a remaining recipient. *)
Definition extractInboxes_ref (p : ExtractInboxesParameters) : gmap string (gset string) :=
  list_to_map ((fun kv => (kv.1, targets p kv.1)) <$> omap (kept_ref p) (recipients p)).

(** Adding one identity under one inbox key. *)
Definition add_target (kv : string * string) (inboxes : gmap string (gset string))
    : gmap string (gset string) :=
  <[kv.1 := default ∅ (inboxes !! kv.1) ∪ {[kv.2]}]> inboxes.

(** The identities collected under [key] by a list of (inbox, identity) pairs. *)
Definition ids_for (key : string) (kvs : list (string * string)) : gset string :=
  list_to_set (snd <$> filter (fun kv => kv.1 = key) kvs).

(** *** Sample recipients *)

Definition alice : Recipient :=
  {| recipient_id := Some (mkURL "https://example.com/alice" "https://example.com");
     inboxId := Some (mkURL "https://example.com/users/inbox" "https://example.com");
     endpoints := None |}.
Definition bob : Recipient :=
  {| recipient_id := Some (mkURL "https://example.com/bob" "https://example.com");
     inboxId := Some (mkURL "https://example.com/users/inbox" "https://example.com");
     endpoints := Some {| sharedInbox := None |} |}.
Definition carol : Recipient :=
  {| recipient_id := Some (mkURL "https://example.com/carol" "https://example.com");
     inboxId := Some (mkURL "https://example.com/carol/inbox" "https://example.com");
     endpoints :=
       Some {| sharedInbox :=
                 Some (mkURL "https://example.com/inbox" "https://example.com") |} |}.
Definition dave : Recipient :=
  {| recipient_id := Some (mkURL "https://other.example/dave" "https://other.example");
     inboxId := Some (mkURL "https://other.example/dave/inbox" "https://other.example");
     endpoints := None |}.
(** A recipient without an inbox. *)
Definition erin : Recipient :=
  {| recipient_id := Some (mkURL "https://example.com/erin" "https://example.com");
     inboxId := None; endpoints := None |}.

(** *** sendActivity *)

(** A WebCrypto [CryptoKey]: its [type] ("private", "public" or "secret"),
    [extractable] and [algorithm.name]. *)
Record CryptoKey := {
  key_type : string;
  extractable : bool;
  algorithm_name : string
}.

Record SenderKeyPair := {
  privateKey : CryptoKey;
  keyId : URL
}.

(** A Fetch [Headers] object: a header list; names are compared without
    regard to ASCII case. *)
Abbreviation Headers := (list (string * string)).

Definition ascii_lower (c : Ascii.ascii) : Ascii.ascii :=
  let n := Ascii.nat_of_ascii c in
  if (65 <=? n)%nat && (n <=? 90)%nat then Ascii.ascii_of_nat (n + 32) else c.

Fixpoint lower (s : string) : string :=
  match s with
  | EmptyString => EmptyString
  | String c rest => String (ascii_lower c) (lower rest)
  end.

Definition same_name (a b : string) : bool := String.eqb (lower a) (lower b).

(** [new Headers(init)]: a copy of [init], empty when [init] is [undefined]. *)
Definition Headers_new (init : option Headers) : Headers := default [] init.

(** [headers.set(name, value)]: the first header named [name] takes [value]
    and the other ones of that name are removed; with no such header,
    [(name, value)] is appended. *)
Fixpoint Headers_set (name value : string) (h : Headers) : Headers :=
  match h with
  | [] => [(name, value)]
  | (n, v) :: rest =>
      if same_name n name
      then (n, value) :: filter (fun nv => same_name nv.1 name = false) rest
      else (n, v) :: Headers_set name value rest
  end.

Record Request := {
  req_url : URL;
  req_method : string;
  req_headers : Headers;
  req_body : string
}.

(** A Fetch [Response]: [status], [statusText], and what [await
    response.text()] gives (the text, or a rejection). *)
Record Response := {
  status : N;
  statusText : string;
  text : exn + string
}.

(** [response.ok]: the status is in the range 200 to 299. *)
Definition ok (r : Response) : bool := (200 <=? status r)%N && (status r <=? 299)%N.

(** The collaborators of [sendActivity], imported from other modules or
    provided by the platform.  A function that can throw or reject returns
    [inl] of the exception. *)
Class SendEnv := {
  Activity : Type;
  DocumentLoader : Type;
  (** [activity.id] and [activity.actorId] *)
  activity_id : Activity → option URL;
  activity_actorId : Activity → option URL;
  (** [validateCryptoKey(key, type)] of sig/key.ts *)
  validateCryptoKey : CryptoKey → string → exn + ();
  (** [signObject(object, privateKey, keyId, { documentLoader, contextLoader })]
      of sig/proof.ts *)
  signObject : Activity → CryptoKey → URL →
               option DocumentLoader → option DocumentLoader → exn + Activity;
  (** [activity.toJsonLd({ format, contextLoader })] *)
  toJsonLd : Activity → string → option DocumentLoader → exn + Json;
  (** [signJsonLd(jsonLd, privateKey, keyId, { contextLoader })] of sig/ld.ts *)
  signJsonLd : Json → CryptoKey → URL → option DocumentLoader → exn + Json;
  (** [signRequest(request, privateKey, keyId)] of sig/http.ts *)
  signRequest : Request → CryptoKey → URL → exn + Request;
  JSON_stringify : Json → string;
  (** the global [fetch] *)
  fetch : Request → exn + Response
}.

Section sendActivity.
Context `{SendEnv}.

Inductive warning := NoLinkedDataSignature | NoProof | NoRequestSignature.

(** What [sendActivity] does to the outside, in order. *)
Inductive event :=
  | EvValidate (key : CryptoKey) (purpose : string)
  | EvSignObject (object : Activity) (key : SenderKeyPair)
  | EvToJsonLd (object : Activity)
  | EvSignJsonLd (jsonLd : Json) (key : SenderKeyPair)
  | EvSignRequest (request : Request) (key : SenderKeyPair)
  | EvFetch (request : Request)
  | EvText (response : Response)
  | EvWarn (w : warning) (subject : string) (keys : list (string * CryptoKey))
  | EvLogError (activityId inbox : string) (status : N) (statusText error : string).

Record SendActivityParameters := {
  activity : Activity;
  keys : list SenderKeyPair;
  inbox : URL;
  contextLoader : option DocumentLoader;
  documentLoader : option DocumentLoader;
  headers : option Headers
}.

(** The variables the key loop assigns. *)
Record loop_state := {
  cur_activity : Activity;
  proofCreated : bool;
  rsaKey : option SenderKeyPair
}.

Definition is_rsa (k : SenderKeyPair) : bool :=
  String.eqb (algorithm_name (privateKey k)) "RSASSA-PKCS1-v1_5".
Definition is_ed25519 (k : SenderKeyPair) : bool :=
  String.eqb (algorithm_name (privateKey k)) "Ed25519".

(** [for (const { keyId, privateKey } of keys) { ... }] *)
Fixpoint keys_loop (p : SendActivityParameters) (ks : list SenderKeyPair)
    (st : loop_state) : M event loop_state :=
  match ks with
  | [] => ret st
  | k :: rest =>
      call (EvValidate (privateKey k) "private")
           (validateCryptoKey (privateKey k) "private") ;;;
      if bool_decide (rsaKey st = None) && is_rsa k then
        keys_loop p rest
          {| cur_activity := cur_activity st; proofCreated := proofCreated st;
             rsaKey := Some k |}
      else if is_ed25519 k then
        signed <- call (EvSignObject (cur_activity st) k)
                       (signObject (cur_activity st) (privateKey k) (keyId k)
                                   (documentLoader p) (contextLoader p)) ;;
        keys_loop p rest
          {| cur_activity := signed; proofCreated := true; rsaKey := rsaKey st |}
      else keys_loop p rest st
  end.

(** [keys.map((pair) => ({ keyId: pair.keyId.href, privateKey: pair.privateKey }))] *)
Definition logged_keys (ks : list SenderKeyPair) : list (string * CryptoKey) :=
  (fun pair => (href (keyId pair), privateKey pair)) <$> ks.

(** The message of the error thrown for a response that is not [ok]. *)
Definition failure_message (activityId inboxHref : string) (r : Response)
    (error : string) : string :=
  "Failed to send activity " +:+ activityId +:+ " to " +:+ inboxHref +:+ " " +:+
  "(" +:+ pretty (status r) +:+ " " +:+ statusText r +:+ "):" +:+ nl +:+ error.

(** What follows [await fetch(request)]. *)
Definition handle_response (activityId : string) (inbox : URL) (response : Response)
    : M event () :=
  if negb (ok response) then
    let error := match text response with inr body => body | inl _ => "" end in
    call (EvText response) (inr error : exn + string) ;;;
    log (EvLogError activityId (href inbox) (status response)
                    (statusText response) error) ;;;
    throw (Error (failure_message activityId (href inbox) response error))
  else ret ().

(** [const request = new Request(inbox, { method: "POST", headers, body })]
    with [headers = new Headers(headers)] after
    [headers.set("Content-Type", "application/activity+json")]. *)
Definition build_request (inbox : URL) (headers : option Headers) (jsonLd : Json)
    : Request :=
  {| req_url := inbox; req_method := "POST";
     req_headers := Headers_set "Content-Type" "application/activity+json"
                                (Headers_new headers);
     req_body := JSON_stringify jsonLd |}.

(** Lines 163 to 248: what [sendActivity] does once the key loop is over,
    from the loop's variables. *)
Definition send_signed (p : SendActivityParameters) (activityId : string)
    (st : loop_state) : M event () :=
  jsonLd <- call (EvToJsonLd (cur_activity st))
                 (toJsonLd (cur_activity st) "compact" (contextLoader p)) ;;
  jsonLd <- match rsaKey st with
            | None =>
                log (EvWarn NoLinkedDataSignature activityId (logged_keys (keys p))) ;;;
                ret jsonLd
            | Some k =>
                call (EvSignJsonLd jsonLd k)
                     (signJsonLd jsonLd (privateKey k) (keyId k) (contextLoader p))
            end ;;
  (if negb (proofCreated st)
   then log (EvWarn NoProof activityId (logged_keys (keys p)))
   else ret ()) ;;;
  let request := build_request (inbox p) (headers p) jsonLd in
  request <- match rsaKey st with
             | None =>
                 log (EvWarn NoRequestSignature (href (inbox p))
                             (logged_keys (keys p))) ;;;
                 ret request
             | Some k =>
                 call (EvSignRequest request k)
                      (signRequest request (privateKey k) (keyId k))
             end ;;
  response <- call (EvFetch request) (fetch request) ;;
  handle_response activityId (inbox p) response.

Definition sendActivity (p : SendActivityParameters) : M event () :=
  match activity_id (activity p) with
  | None => throw (TypeError "The activity to send must have an id.")
  | Some aid =>
    match activity_actorId (activity p) with
    | None =>
        throw (TypeError "The activity to send must have at least one actor property.")
    | Some _ =>
      if (length (keys p) <? 1)%nat then throw (TypeError "The keys must not be empty.")
      else
        st <- keys_loop p (keys p)
                {| cur_activity := activity p; proofCreated := false; rsaKey := None |} ;;
        send_signed p (href aid) st
    end
  end.

(** *** The layering, as the specification words it

    Integrity Proofs first, one per Ed25519 key, the object threaded through
    the attachments. *)
Fixpoint attach_proofs (dl cl : option DocumentLoader) (eds : list SenderKeyPair)
    (object : Activity) : M event Activity :=
  match eds with
  | [] => ret object
  | k :: rest =>
      signed <- call (EvSignObject object k)
                     (signObject object (privateKey k) (keyId k) dl cl) ;;
      attach_proofs dl cl rest signed
  end.

(** Then serialization, then the Linked-Data Signature and the transport
    signature by the RSA signer [rsa], or a warning at each layer without
    one; [logged] is what the warnings report. *)
Definition layered (activity : Activity) (activityId : string) (inbox : URL)
    (cl dl : option DocumentLoader) (headers : option Headers)
    (eds : list SenderKeyPair) (rsa : option SenderKeyPair)
    (logged : list (string * CryptoKey)) : M event () :=
  signed <- attach_proofs dl cl eds activity ;;
  compacted <- call (EvToJsonLd signed) (toJsonLd signed "compact" cl) ;;
  request <-
    match rsa with
    | Some k =>
        wrapped <- call (EvSignJsonLd compacted k)
                        (signJsonLd compacted (privateKey k) (keyId k) cl) ;;
        (match eds with
         | [] => log (EvWarn NoProof activityId logged)
         | _ => ret ()
         end) ;;;
        call (EvSignRequest (build_request inbox headers wrapped) k)
             (signRequest (build_request inbox headers wrapped) (privateKey k) (keyId k))
    | None =>
        log (EvWarn NoLinkedDataSignature activityId logged) ;;;
        (match eds with
         | [] => log (EvWarn NoProof activityId logged)
         | _ => ret ()
         end) ;;;
        log (EvWarn NoRequestSignature (href inbox) logged) ;;;
        ret (build_request inbox headers compacted)
    end ;;
  response <- call (EvFetch request) (fetch request) ;;
  handle_response activityId inbox response.

(** Classification of events. *)
Definition is_validate (ev : event) : bool :=
  match ev with EvValidate _ _ => true | _ => false end.
Definition is_signObject (ev : event) : bool :=
  match ev with EvSignObject _ _ => true | _ => false end.
Definition is_fetch (ev : event) : bool :=
  match ev with EvFetch _ => true | _ => false end.
(** The three signing operations. *)
Definition is_signing (ev : event) : bool :=
  match ev with
  | EvSignObject _ _ | EvSignJsonLd _ _ | EvSignRequest _ _ => true
  | _ => false
  end.
(** The signing operations after serialization. *)
Definition is_late_signing (ev : event) : bool :=
  match ev with
  | EvSignJsonLd _ _ | EvSignRequest _ _ => true
  | _ => false
  end.

(** Serialization: [activity.toJsonLd(...)]. *)
Definition is_serialization (ev : event) : bool :=
  match ev with EvToJsonLd _ => true | _ => false end.

(** The validation events of a list of key pairs, in order. *)
Definition validations (ks : list SenderKeyPair) : list event :=
  (fun k => EvValidate (privateKey k) "private") <$> ks.

(** The claim that no signing precedes the validation of any key. *)
Definition validated_before_any_signing (p : SendActivityParameters) : Prop :=
  ∀ pre ev post,
    (sendActivity p).1 = (pre ++ ev :: post)%list →
    is_signing ev = true →
    ∀ k, k ∈ keys p → EvValidate (privateKey k) "private" ∈ pre.

(** Every key passes [validateCryptoKey(privateKey, "private")]. *)
Definition all_valid (ks : list SenderKeyPair) : Prop :=
  Forall (fun k => validateCryptoKey (privateKey k) "private" = inr ()) ks.

(** The loop variables after a completed loop over [ks] that started with
    [proofCreated = pc] and [rsaKey = r] and attached proofs up to [signed]. *)
Definition loop_result (pc : bool) (r : option SenderKeyPair)
    (ks : list SenderKeyPair) (signed : Activity) : loop_state :=
  {| cur_activity := signed;
     proofCreated := pc || bool_decide (filter (fun k => is_ed25519 k = true) ks ≠ []);
     rsaKey := match r with Some k => Some k | None => find is_rsa ks end |}.

(** [await fetch(request)] and what follows. *)
Definition deliver (activityId : string) (inbox : URL) (request : Request) : M event () :=
  response <- call (EvFetch request) (fetch request) ;;
  handle_response activityId inbox response.

(** How the request that is fetched was made. *)
Definition sent_request (p : SendActivityParameters) (pre : list event)
    (request : Request) : Prop :=
  ∃ jsonLd,
    let built := build_request (inbox p) (headers p) jsonLd in
    request = built ∨
    ∃ k, EvSignRequest built k ∈ pre ∧
         signRequest built (privateKey k) (keyId k) = inr request.

(** [headers.get(name)]: the values of the headers named [name], joined by
    a comma and a space; [null] without such a header. *)
Definition Headers_get (name : string) (h : Headers) : option string :=
  match filter (fun nv => same_name nv.1 name = true) h with
  | [] => None
  | found => Some (join ", " (snd <$> found))
  end.

(** Modelled from the spec: [signRequest] of sig/http.ts is not among the
    sources; the spec has it produce signature headers appended to the
    request.  [signRequest_keeps name] says that the signed request answers
    [headers.get(name)] as the request it was made from does, as it is for
    a name that is not one of the headers [signRequest] writes. *)
Definition signRequest_keeps (name : string) : Prop :=
  ∀ request key kid signed,
    signRequest request key kid = inr signed →
    Headers_get name (req_headers signed) = Headers_get name (req_headers request).

End sendActivity.

(** *** A concrete set of collaborators

    Used to run [sendActivity] on examples.  An activity is its identity, its
    actor and the key ids of the proofs attached so far. *)
Record SampleActivity := {
  sample_id : option URL;
  sample_actor : option URL;
  sample_proofs : list string
}.

(** Modelled from the spec: [validateCryptoKey] of sig/key.ts is not among the
    sources; a key is accepted when it has the asked purpose and one of the
    two supported algorithms, and rejected with a [TypeError] otherwise. *)
Definition sample_validateCryptoKey (key : CryptoKey) (purpose : string) : exn + () :=
  if negb (String.eqb (key_type key) purpose)
  then inl (TypeError ("The key is not a " +:+ purpose +:+ " key."))
  else if String.eqb (algorithm_name key) "RSASSA-PKCS1-v1_5"
          || String.eqb (algorithm_name key) "Ed25519"
  then inr ()
  else inl (TypeError "Currently only RSASSA-PKCS1-v1_5 and Ed25519 keys are supported.").

Definition sample_toJsonLd (a : SampleActivity) : Json :=
  JObj [("@context", JStr "https://www.w3.org/ns/activitystreams");
        ("id", from_option (fun u => JStr (href u)) JNull (sample_id a));
        ("actor", from_option (fun u => JStr (href u)) JNull (sample_actor a));
        ("proof", JArr (JStr <$> sample_proofs a))].

(** A serializer that is enough to tell the sample documents apart: the
    proofs and the signature creator, in order. *)
Definition sample_stringify (doc : Json) : string :=
  match doc with
  | JObj props =>
      let proofs :=
        match props_get "proof" props with
        | Some (JArr items) =>
            join "," ((fun j => match j with JStr s => s | _ => "" end) <$> items)
        | _ => ""
        end in
      let signature :=
        match props_get "signature" props with
        | Some (JStr creator) => creator
        | _ => ""
        end in
      "{proof:[" +:+ proofs +:+ "],signature:" +:+ signature +:+ "}"
  | _ => ""
  end.

(** The inbox at [https://down.example/inbox] answers 500 with the body
    "boom"; every other inbox answers 202. *)
Definition sample_fetch (request : Request) : exn + Response :=
  if String.eqb (href (req_url request)) "https://down.example/inbox"
  then inr {| status := 500; statusText := "Internal Server Error"; text := inr "boom" |}
  else inr {| status := 202; statusText := "Accepted"; text := inr "" |}.

Definition sample_env : SendEnv := {|
  Activity := SampleActivity;
  DocumentLoader := ();
  activity_id := sample_id;
  activity_actorId := sample_actor;
  validateCryptoKey := sample_validateCryptoKey;
  signObject := fun a key kid _ _ =>
    inr {| sample_id := sample_id a; sample_actor := sample_actor a;
           sample_proofs := sample_proofs a ++ [href kid] |};
  toJsonLd := fun a _ _ => inr (sample_toJsonLd a);
  signJsonLd := fun doc key kid _ =>
    match doc with
    | JObj props => inr (JObj (props ++ [("signature", JStr (href kid))]))
    | _ => inl (TypeError "not a JSON-LD document")
    end;
  signRequest := fun request key kid =>
    inr {| req_url := req_url request; req_method := req_method request;
           req_headers := Headers_set "Signature" (href kid) (req_headers request);
           req_body := req_body request |};
  JSON_stringify := sample_stringify;
  fetch := sample_fetch
|}.

Definition url (h o : string) : URL := {| href := h; origin := o |}.

Definition ed_key : SenderKeyPair :=
  {| privateKey := {| key_type := "private"; extractable := true;
                      algorithm_name := "Ed25519" |};
     keyId := url "https://example.com/key2" "https://example.com" |}.
Definition rsa_key : SenderKeyPair :=
  {| privateKey := {| key_type := "private"; extractable := true;
                      algorithm_name := "RSASSA-PKCS1-v1_5" |};
     keyId := url "https://example.com/key" "https://example.com" |}.
Definition rsa_key' : SenderKeyPair :=
  {| privateKey := {| key_type := "private"; extractable := true;
                      algorithm_name := "RSASSA-PKCS1-v1_5" |};
     keyId := url "https://example.com/key3" "https://example.com" |}.
(** A public key, which [validateCryptoKey(key, "private")] rejects. *)
Definition public_key : SenderKeyPair :=
  {| privateKey := {| key_type := "public"; extractable := true;
                      algorithm_name := "RSASSA-PKCS1-v1_5" |};
     keyId := url "https://example.com/key4" "https://example.com" |}.

Definition sample_activity : @Activity sample_env :=
  {| sample_id := Some (url "https://example.com/activity" "https://example.com");
     sample_actor := Some (url "https://example.com/person" "https://example.com");
     sample_proofs := [] |}.

Definition example_inbox : URL := url "https://example.com/inbox" "https://example.com".
Definition down_inbox : URL := url "https://down.example/inbox" "https://down.example".

Definition sample_send (a : @Activity sample_env) (ks : list SenderKeyPair)
    (to : URL) (hs : option Headers) : @SendActivityParameters sample_env :=
  {| activity := a; keys := ks;
     inbox := to;
     contextLoader := None; documentLoader := None; headers := hs |}.

(** Two keys: an Ed25519 private key, then a public key. *)
Definition interleaved_send : @SendActivityParameters sample_env :=
  sample_send sample_activity [ed_key; public_key] example_inbox None.

(** Three keys, an Ed25519 one between two RSA ones, and caller headers that
    carry their own content type. *)
Definition layered_send : @SendActivityParameters sample_env :=
  sample_send sample_activity [rsa_key; ed_key; rsa_key'] example_inbox
              (Some [("content-type", "text/plain"); ("X-Trace", "abc")]).

(** A send to the inbox that answers 500. *)
Definition down_send : @SendActivityParameters sample_env :=
  sample_send sample_activity [rsa_key; ed_key] down_inbox None.

(** The request that [down_send] fetches. *)
Definition down_request : Request :=
  {| req_url := down_inbox;
     req_method := "POST";
     req_headers := [("Content-Type", "application/activity+json");
                     ("Signature", "https://example.com/key")];
     req_body := "{proof:[https://example.com/key2],signature:https://example.com/key}" |}.

(** The request that [layered_send] fetches. *)
Definition layered_request : Request :=
  {| req_url := example_inbox;
     req_method := "POST";
     req_headers := [("content-type", "application/activity+json");
                     ("X-Trace", "abc");
                     ("Signature", "https://example.com/key")];
     req_body := "{proof:[https://example.com/key2],signature:https://example.com/key}" |}.

Definition down_response : Response :=
  {| status := 500; statusText := "Internal Server Error"; text := inr "boom" |}.

(** [sample_activity] with the proof of [ed_key] attached, and the events of
    the run of [layered_send] before it serializes that activity. *)
Definition proved_activity : @Activity sample_env :=
  {| sample_id := sample_id sample_activity;
     sample_actor := sample_actor sample_activity;
     sample_proofs := ["https://example.com/key2"] |}.

Definition before_serialization : list (@event sample_env) :=
  [EvValidate (privateKey rsa_key) "private";
   EvValidate (privateKey ed_key) "private";
   EvSignObject sample_activity ed_key;
   EvValidate (privateKey rsa_key') "private"].

End Send.

(** ** codegen/property.ts

    [generateProperty] emits, for a property whose range is not all scalar,
    the private methods [#fetchX] and [#x_fromJsonLd] and the accessors
    [xId], [getX] (when the property is functional or has a singular
    accessor), [xIds] and [getXs] (when it is not functional).  The
    definitions below are those emitted methods, as functions of the
    property's schema.  The tracing spans of [#fetchX] are left out. *)

Module Property.

(** The fields of schema.ts's [PropertySchema] and [TypeSchema] that the
    emitted accessors depend on. *)
Record PropertySchema := {
  singularName : string;
  pluralName : string;
  compactName : option string;
  range : list string;
  functional : bool;
  singularAccessor : bool
}.

Record TypeSchema := {
  name : string;
  uri : string
}.

Record RemoteDocument := {
  document : Json;
  documentUrl : string
}.

(** The vocabulary classes and the outside world of the emitted code. *)
Class ResolverEnv := {
  (** instances of the vocabulary classes, and their [id] *)
  Object : Type;
  object_id : Object → option URL;
  (** the static [fromJsonLd] of the class of that name *)
  fromJsonLd : string → Json → exn + Object;
  (** what document loaders read and change *)
  World : Type
}.

Section accessors.
Context `{ResolverEnv}.

(** A [DocumentLoader]: given the [href], a rejection or a document. *)
Definition DocumentLoader : Type := World → string → (exn + RemoteDocument) * World.

(** An element of the property's field: [URL | Object]. *)
Inductive slot :=
  | Reference (url : URL)
  | Inline (object : Object).

(** [this]: the property's field, [_cachedJsonLd] and [_documentLoader]. *)
Record instance := {
  field : list slot;
  _cachedJsonLd : option Json;
  _documentLoader : option DocumentLoader
}.

Record Options := {
  documentLoader : option DocumentLoader;
  suppressError : option bool
}.

Inductive event :=
  | EvLoad (url : string)
  | EvParse (className : string) (jsonLd : Json)
  | EvLogFetchFailure (url : string) (error : exn)
  | EvLogParseFailure (url : string) (error : exn).

Definition is_load (ev : event) : bool :=
  match ev with EvLoad _ => true | _ => false end.

Section property.
Variable property : PropertySchema.
Variable types : gmap string TypeSchema.
(** [getDocumentLoader()], the default loader. *)
Variable getDocumentLoader : DocumentLoader.

(** The body of [#x_fromJsonLd] after its preamble: one [try] block per
    member of [property.range] that is a key of [types], then the final
    [throw]. *)
Fixpoint try_candidates (remaining : list string) (jsonLd : Json) : M event Object :=
  match remaining with
  | [] =>
      throw (TypeError ("Expected an object of any type of: " +:+
                        join ", " (range property)))
  | r :: rest =>
      match types !! r with
      | None => try_candidates rest jsonLd
      | Some rangeType =>
          match fromJsonLd (name rangeType) jsonLd with
          | inr object => call (EvParse (name rangeType) jsonLd) (inr object)
          | inl (TypeError _) =>
              log (EvParse (name rangeType) jsonLd) ;;; try_candidates rest jsonLd
          | inl e => call (EvParse (name rangeType) jsonLd) (inl e)
          end
      end
  end.

Definition x_fromJsonLd (jsonLd : Json) : M event Object :=
  try_candidates (range property) jsonLd.

(** [options.documentLoader ?? this._documentLoader ?? getDocumentLoader()] *)
Definition chosen_loader (this : instance) (options : Options) : DocumentLoader :=
  default (default getDocumentLoader (_documentLoader this)) (documentLoader options).

(** [#fetchX(url, options)]; [None] is [null]. *)
Definition fetchX (this : instance) (url : URL) (options : Options) (w : World)
    : M event (option Object) * World :=
  let suppress := default false (suppressError options) in
  match chosen_loader this options w (href url) with
  | (inl error, w') =>
      (if suppress
       then call (EvLoad (href url)) (inr ()) ;;;
            log (EvLogFetchFailure (href url) error) ;;; ret None
       else call (EvLoad (href url)) (inl error),
       w')
  | (inr fetchResult, w') =>
      (call (EvLoad (href url)) (inr ()) ;;;
       let parsed := x_fromJsonLd (document fetchResult) in
       match parsed.2 with
       | inr obj => (parsed.1, inr (Some obj))
       | inl e =>
           if suppress
           then (parsed.1 ++ [EvLogParseFailure (href url) e], inr None)
           else (parsed.1, inl e)
       end,
       w')
  end.

(** The test of the block emitted when [property.compactName != null]:
    the inline sub-document of [_cachedJsonLd] at this property and at
    position [i], when it carries its own ["@context"]. *)
Definition cached_fragment (this : instance) (i : nat) : option Json :=
  compact ← compactName property;
  cached ← _cachedJsonLd this;
  if is_object cached && has_key "@context" cached && has_key compact cached then
    prop ← match cached with JObj props => props_get compact props | _ => None end;
    obj ← match prop with JArr items => items !! i | _ => Some prop end;
    if is_object obj && has_key "@context" obj then Some obj else None
  else None.

(** [get xId()] *)
Definition xId (this : instance) : option URL :=
  match field this with
  | [] => None
  | v :: _ =>
      match v with
      | Reference u => Some u
      | Inline o => object_id o
      end
  end.

(** [get xIds()]: [.map((v) => v instanceof URL ? v : v.id!)
                   .filter(id => id !== null)] *)
Definition xIds (this : instance) : list URL :=
  omap (fun identity : option URL => identity)
       ((fun v => match v with Reference u => Some u | Inline o => object_id o end)
          <$> field this).

Definition set_field (this : instance) (f : list slot) : instance :=
  {| field := f; _cachedJsonLd := _cachedJsonLd this;
     _documentLoader := _documentLoader this |}.

(** A call of an accessor, run to its end: the events, the outcome, and
    [this] and the world afterwards. *)
Record run (A : Type) := {
  events : list event;
  outcome : A;
  this_after : instance;
  world_after : World
}.
Arguments events {A} _.
Arguments outcome {A} _.
Arguments this_after {A} _.
Arguments world_after {A} _.

(** [getX(options)]; the outcome is the exception thrown or the value
    returned, [None] for [null]. *)
Definition getX (this : instance) (options : Options) (w : World)
    : run (exn + option Object) :=
  match field this with
  | [] => {| events := []; outcome := inr None; this_after := this; world_after := w |}
  | v :: _ =>
      match v with
      | Reference u =>
          let '(fetched, w') := fetchX this u options w in
          match fetched.2 with
          | inr (Some object) =>
              (* this.field[0] = fetched; return fetched; *)
              {| events := fetched.1; outcome := inr (Some object);
                 this_after := set_field this (<[0%nat := Inline object]> (field this));
                 world_after := w' |}
          | other =>
              {| events := fetched.1; outcome := other;
                 this_after := this; world_after := w' |}
          end
      | Inline o =>
          match cached_fragment this 0 with
          | Some obj =>
              let parsed := x_fromJsonLd obj in
              {| events := parsed.1;
                 outcome := match parsed.2 with
                            | inl e => inl e
                            | inr object => inr (Some object)
                            end;
                 this_after := this; world_after := w |}
          | None =>
              {| events := []; outcome := inr (Some o);
                 this_after := this; world_after := w |}
          end
      end
  end.

(** The generator [getXs(options)], run to its end; the outcome is the
    values yielded, in order, and the exception that ended the run, if any. *)
Definition generated : Type := run (list Object * option exn).

Definition yielded (g : generated) : list Object := (outcome g).1.
Definition thrown (g : generated) : option exn := (outcome g).2.

Definition finished (this : instance) (w : World) : generated :=
  {| events := []; outcome := ([], None); this_after := this; world_after := w |}.
Definition stopped (evs : list event) (e : exn) (this : instance) (w : World)
    : generated :=
  {| events := evs; outcome := ([], Some e); this_after := this; world_after := w |}.
(** The events and yields of one iteration, before those of the next ones. *)
Definition before (evs : list event) (ys : list Object) (g : generated) : generated :=
  {| events := evs ++ events g; outcome := (ys ++ yielded g, thrown g);
     this_after := this_after g; world_after := world_after g |}.

(** [for (let i = 0; i < vs.length; i++)], with [n] iterations left;
    [vs] is [this.field] itself, so [vs[i] = fetched] changes the field. *)
Fixpoint getXs_loop (options : Options) (n i : nat) (this : instance) (w : World)
    : generated :=
  match n with
  | O => finished this w
  | S n' =>
      match field this !! i with
      | None => finished this w
      | Some (Reference u) =>
          let '(fetched, w') := fetchX this u options w in
          match fetched.2 with
          | inl e => stopped fetched.1 e this w'
          | inr None => before fetched.1 [] (getXs_loop options n' (S i) this w')
          | inr (Some object) =>
              before fetched.1 [object]
                (getXs_loop options n' (S i)
                   (set_field this (<[i := Inline object]> (field this))) w')
          end
      | Some (Inline o) =>
          match cached_fragment this i with
          | Some obj =>
              let parsed := x_fromJsonLd obj in
              match parsed.2 with
              | inl e => stopped parsed.1 e this w
              | inr object =>
                  before parsed.1 [object] (getXs_loop options n' (S i) this w)
              end
          | None => before [] [o] (getXs_loop options n' (S i) this w)
          end
      end
  end.

Definition getXs (this : instance) (options : Options) (w : World) : generated :=
  getXs_loop options (length (field this)) 0 this w.

(** *** The plural accessor, slot by slot

    The reference definition: the slots are visited in order, [i] being the
    position of the first one; a [Reference] that resolves is replaced by
    the [Inline] object, which is yielded; a [Reference] whose failure is
    suppressed is kept and yields nothing; a failure that is thrown ends the
    run; an [Inline] slot yields its object, or what its cached fragment
    parses to. The outcome is paired with the slots afterwards. *)
Fixpoint sweep (this : instance) (options : Options) (i : nat) (slots : list slot)
    (w : World) : list event * (list Object * option exn) * list slot * World :=
  match slots with
  | [] => ([], ([], None), [], w)
  | Reference u :: rest =>
      let '(fetched, w') := fetchX this u options w in
      match fetched.2 with
      | inl e => (fetched.1, ([], Some e), Reference u :: rest, w')
      | inr None =>
          let '(evs, (ys, e), rest', w'') := sweep this options (S i) rest w' in
          (fetched.1 ++ evs, (ys, e), Reference u :: rest', w'')
      | inr (Some object) =>
          let '(evs, (ys, e), rest', w'') := sweep this options (S i) rest w' in
          (fetched.1 ++ evs, (object :: ys, e), Inline object :: rest', w'')
      end
  | Inline o :: rest =>
      match cached_fragment this i with
      | Some obj =>
          let parsed := x_fromJsonLd obj in
          match parsed.2 with
          | inl e => (parsed.1, ([], Some e), Inline o :: rest, w)
          | inr object =>
              let '(evs, (ys, e), rest', w') := sweep this options (S i) rest w in
              (parsed.1 ++ evs, (object :: ys, e), Inline o :: rest', w')
          end
      | None =>
          let '(evs, (ys, e), rest', w') := sweep this options (S i) rest w in
          (evs, (o :: ys, e), Inline o :: rest', w')
      end
  end.

Definition getXs_ref (this : instance) (options : Options) (w : World) : generated :=
  let '(evs, out, slots, w') := sweep this options 0 (field this) w in
  {| events := evs; outcome := out; this_after := set_field this slots;
     world_after := w' |}.

(** *** Vocabulary of the statements *)

(** The candidates among the members of [remaining]. *)
Definition candidates_of (remaining : list string) : list (string * TypeSchema) :=
  omap (fun r => (fun t => (r, t)) <$> types !! r) remaining.

(** The members of [property.range] that are keys of [types], in declared
    order, each with its type. *)
Definition candidates : list (string * TypeSchema) := candidates_of (range property).

Definition attempt (jsonLd : Json) (c : string * TypeSchema) : event :=
  EvParse (name c.2) jsonLd.

(** The parser of the candidate throws a [TypeError]. *)
Definition mismatch (jsonLd : Json) (c : string * TypeSchema) : Prop :=
  ∃ msg, fromJsonLd (name c.2) jsonLd = inl (TypeError msg).

(** The message contains the string. *)
Definition mentions (msg part : string) : Prop :=
  ∃ pre post, msg = pre +:+ part +:+ post.

Definition inline_object (v : slot) : option Object :=
  match v with Inline o => Some o | Reference _ => None end.

(** What a run of the plural accessor does to one slot: nothing, or a
    [Reference] is replaced by an [Inline] object that was yielded. *)
Definition fate (ys : list Object) (old new : slot) : Prop :=
  new = old ∨ ∃ u o, old = Reference u ∧ new = Inline o ∧ o ∈ ys.

(** The claim that a [Reference] slot is resolved through the cached
    fragment, without the loader, whenever there is one. *)
Definition fragment_skips_loader (this : instance) (options : Options) (w : World)
    : Prop :=
  ∀ u rest obj,
    field this = Reference u :: rest →
    cached_fragment this 0 = Some obj →
    Forall (fun ev => is_load ev = false) (events (getX this options w)) ∧
    outcome (getX this options w) = sum_map id Some (x_fromJsonLd obj).2.

End property.
End accessors.

Arguments events {_ _} _.
Arguments outcome {_ _} _.
Arguments this_after {_ _} _.
Arguments world_after {_ _} _.

(** *** Sample classes, documents and loader *)

Record SampleObject := {
  sample_type : string;
  sample_object_id : option URL
}.

(** A class accepts the documents whose ["type"] is its name; a document
    without a type is malformed, which is not a [TypeError]. *)
Definition sample_fromJsonLd (className : string) (jsonLd : Json) : exn + SampleObject :=
  match jsonLd with
  | JObj props =>
      match props_get "type" props with
      | Some (JStr t) =>
          if String.eqb t className
          then inr {| sample_type := t;
                      sample_object_id :=
                        match props_get "id" props with
                        | Some (JStr s) => Some (mkURL s "https://example.com")
                        | _ => None
                        end |}
          else inl (TypeError ("Invalid type: " +:+ t))
      | _ => inl (Error "The document has no type.")
      end
  | _ => inl (TypeError "Invalid JSON-LD.")
  end.

Definition sample_resolver : ResolverEnv := {|
  Object := SampleObject;
  object_id := sample_object_id;
  fromJsonLd := sample_fromJsonLd;
  World := list string
|}.

Definition person_document (id : string) : Json :=
  JObj [("@context", JStr "https://www.w3.org/ns/activitystreams");
        ("type", JStr "Person");
        ("id", JStr id)].

(** The world is the list of the URLs loaded so far; every URL but
    [https://example.com/gone] gives a [Person]. *)
Definition sample_loader : @DocumentLoader sample_resolver :=
  fun w href =>
    if String.eqb href "https://example.com/gone"
    then (inl (Error "404 Not Found"), w ++ [href])
    else (inr {| document := person_document href; documentUrl := href |}, w ++ [href]).

Definition actor_property : PropertySchema :=
  {| singularName := "actor"; pluralName := "actors"; compactName := Some "actor";
     range := ["https://www.w3.org/ns/activitystreams#Application";
               "http://www.w3.org/2001/XMLSchema#anyURI";
               "https://www.w3.org/ns/activitystreams#Person"];
     functional := false; singularAccessor := true |}.

Definition sample_types : gmap string TypeSchema :=
  <["https://www.w3.org/ns/activitystreams#Application" :=
      {| name := "Application";
         uri := "https://www.w3.org/ns/activitystreams#Application" |}]>
  (<["https://www.w3.org/ns/activitystreams#Person" :=
      {| name := "Person"; uri := "https://www.w3.org/ns/activitystreams#Person" |}]> ∅).

Definition example_url (h : string) : URL := mkURL h "https://example.com".

Definition person (id : string) : @Object sample_resolver :=
  {| sample_type := "Person"; sample_object_id := Some (example_url id) |}.

Definition suppressing : @Options sample_resolver :=
  {| documentLoader := None; suppressError := Some true |}.
Definition propagating : @Options sample_resolver :=
  {| documentLoader := None; suppressError := None |}.

(** Three references, the second of which cannot be loaded. *)
Definition three_references : @instance sample_resolver :=
  {| field := [Reference (example_url "https://example.com/a");
               Reference (example_url "https://example.com/gone");
               Reference (example_url "https://example.com/c")];
     _cachedJsonLd := None; _documentLoader := None |}.

Definition one_reference : @instance sample_resolver :=
  {| field := [Reference (example_url "https://example.com/a")];
     _cachedJsonLd := None; _documentLoader := None |}.

Definition gone_reference : @instance sample_resolver :=
  {| field := [Reference (example_url "https://example.com/gone")];
     _cachedJsonLd := None; _documentLoader := None |}.

(** A reference whose parent kept a source document with the actor inline,
    under its own context. *)
Definition cached_reference : @instance sample_resolver :=
  {| field := [Reference (example_url "https://example.com/a")];
     _cachedJsonLd :=
       Some (JObj [("@context", JStr "https://www.w3.org/ns/activitystreams");
                   ("type", JStr "Create");
                   ("actor", person_document "https://example.com/a")]);
     _documentLoader := None |}.

(** The same source document, with the slot already holding an object. *)
Definition cached_inline : @instance sample_resolver :=
  {| field := [Inline (person "https://example.com/a")];
     _cachedJsonLd := _cachedJsonLd cached_reference;
     _documentLoader := None |}.

(** A person without an identity. *)
Definition anonymous : @Object sample_resolver :=
  {| sample_type := "Person"; sample_object_id := None |}.

Definition mixed_slots : @instance sample_resolver :=
  {| field := [Reference (example_url "https://example.com/a");
               Inline anonymous;
               Inline (person "https://example.com/b")];
     _cachedJsonLd := None; _documentLoader := None |}.

End Property.

(** ** Vocabulary of further statements *)

Module SendEvents.
Import Send.
Section events.
Context `{SendEnv}.

(** The kind of a warning event. *)
Definition warning_of (ev : event) : option warning :=
  match ev with EvWarn w _ _ => Some w | _ => None end.

(** The key of a proof attachment event. *)
Definition proof_key (ev : event) : option SenderKeyPair :=
  match ev with EvSignObject _ k => Some k | _ => None end.

(** The warnings of a send that gets as far as the request, from what the
    key list holds. *)
Definition expected_warnings (ks : list SenderKeyPair) : list warning :=
  match find is_rsa ks with Some _ => [] | None => [NoLinkedDataSignature] end ++
  (if bool_decide (filter (fun k => is_ed25519 k = true) ks = []) then [NoProof] else []) ++
  match find is_rsa ks with Some _ => [] | None => [NoRequestSignature] end.

End events.
End SendEvents.

Module PropertyMore.
Import Property.
Section more.
Context `{ResolverEnv}.

(** The URLs of the slots that hold a reference, in slot order. *)
Definition references (slots : list slot) : list URL :=
  omap (fun v => match v with Reference u => Some u | Inline _ => None end) slots.

Definition is_inline (v : slot) : bool :=
  match v with Inline _ => true | Reference _ => false end.

End more.
End PropertyMore.

(** ** codegen/property.ts: emitOverride, and codegen/inspector.ts

    [emitOverride] runs in the generator, on the schema; the method
    [_getCustomInspectProxy] that [generateInspector] emits runs on an
    instance of the generated class. *)

Module Codegen.

(** The fields of schema.ts's [PropertySchema] and [TypeSchema] that
    [emitOverride] and [generateInspector] read. *)
Record PropertySchema := {
  singularName : string;
  pluralName : string;
  uri : string;
  range : list string;
  functional : bool;
  singularAccessor : bool
}.

Record TypeSchema := {
  name : string;
  extends : option string;
  properties : list PropertySchema
}.

(** *** emitOverride *)

(** [st.properties.find((p) => p.singularName === property.singularName)],
    as the condition of the [if]. *)
Definition declares (property : PropertySchema) (st : TypeSchema) : bool :=
  match find (fun p => String.eqb (singularName p) (singularName property))
             (properties st) with
  | Some _ => true
  | None => false
  end.

(** The [while] loop, with [fuel] iterations at most; [None] when they do
    not suffice.  Reading a property of [types[uri]] when [uri] is not a key
    throws a [TypeError]. *)
Fixpoint emitOverride_loop (types : gmap string TypeSchema) (property : PropertySchema)
    (fuel : nat) (supertypeUri : option string) : option (exn + string) :=
  match supertypeUri with
  | None => Some (inr "")
  | Some sup =>
      match fuel with
      | O => None
      | S fuel' =>
          match types !! sup with
          | None =>
              Some (inl (TypeError
                "Cannot read properties of undefined (reading 'properties')"))
          | Some st =>
              if declares property st then Some (inr "override")
              else emitOverride_loop types property fuel' (extends st)
          end
      end
  end.

Definition emitOverride (fuel : nat) (typeUri : string) (types : gmap string TypeSchema)
    (property : PropertySchema) : option (exn + string) :=
  match types !! typeUri with
  | None =>
      Some (inl (TypeError "Cannot read properties of undefined (reading 'extends')"))
  | Some type => emitOverride_loop types property fuel (extends type)
  end.

(** The types that the loop goes through from [start], nearest first, each
    of them a key of [types], and the [extends] of the last one (or [start]
    when there is none). *)
Inductive path (types : gmap string TypeSchema)
    : option string → list TypeSchema → option string → Prop :=
  | path_here start : path types start [] start
  | path_super sup st supers next :
      types !! sup = Some st →
      path types (extends st) supers next →
      path types (Some sup) (st :: supers) next.

(** *** The method that generateInspector emits *)

Section inspector.
(** The values of a field that are not [URL]s. *)
Variable Raw : Type.
(** [areAllScalarTypes(property.range, types)] of type.ts and
    [getFieldName(property.uri)] of field.ts *)
Variable areAllScalarTypes : list string → bool.
Variable getFieldName : string → string.
(** The names of the members that a plain object inherits from
    [Object.prototype] (["constructor"], ["toString"], ...): [name in proxy]
    holds of them whatever the keys of [proxy] are. *)
Variable inherited : string → bool.

Inductive fvalue :=
  | FUrl (u : URL)
  | FOther (r : Raw).

(** What the proxy holds for a value: the value itself, or, for a [URL] of a
    property that is not all scalar, the object that inspects as
    ["URL " + inspect(v.href)]. *)
Inductive shown :=
  | Wrapped (href : string)
  | Plain (v : fvalue).

(** [proxy.x = local[0]] or [proxy.xs = local] *)
Inductive entry :=
  | One (s : shown)
  | Many (l : list shown).

(** [this]: its [id] and its fields, by field name. *)
Record inspected := {
  this_id : option URL;
  this_field : string → list fvalue
}.

(** [const local = this.field] or
    [const local = this.field.map(v => v instanceof URL ? {...} : v)] *)
Definition local_of (this : inspected) (property : PropertySchema) : list shown :=
  let vs := this_field this (getFieldName (uri property)) in
  if areAllScalarTypes (range property) then Plain <$> vs
  else (fun v => match v with FUrl u => Wrapped (href u) | FOther _ => Plain v end) <$> vs.

(** The statements emitted for one property.  [proxy] is a plain object:
    [name in proxy] holds of its own keys and of the names it inherits, and
    [proxy.name = value] sets its own key [name]. *)
Definition inspect_property (this : inspected) (proxy : gmap string entry)
    (property : PropertySchema) : gmap string entry :=
  let local := local_of this property in
  let proxy1 :=
    if functional property || singularAccessor property then
      match local with
      | [x] => <[singularName property := One x]> proxy
      | _ => proxy
      end
    else proxy in
  if negb (functional property) then
    if (1 <? length local)%nat
       || negb (bool_decide (is_Some (proxy1 !! singularName property))
                || inherited (singularName property))
          && (0 <? length local)%nat
    then <[pluralName property := Many local]> proxy1
    else proxy1
  else proxy1.

(** The proxy of a type that extends nothing, before its properties. *)
Definition root_proxy (this : inspected) : gmap string entry :=
  match this_id this with
  | Some u => {[ "id" := One (Wrapped (href u)) ]}
  | None => ∅
  end.

(** The body of [_getCustomInspectProxy()] emitted for [type]; [super] is
    what [super._getCustomInspectProxy()] returns. *)
Definition getCustomInspectProxy_of (type : TypeSchema) (super : gmap string entry)
    (this : inspected) : gmap string entry :=
  foldl (inspect_property this)
        (match extends type with None => root_proxy this | Some _ => super end)
        (properties type).

(** The method on an instance of the class generated for the first type of
    the list, the rest being its superclasses, nearest first. *)
Fixpoint getCustomInspectProxy (classes : list TypeSchema) (this : inspected)
    : gmap string entry :=
  match classes with
  | [] => ∅
  | type :: supers =>
      getCustomInspectProxy_of type (getCustomInspectProxy supers this) this
  end.

(** The class list ends with a type that extends nothing, and only that
    one does. *)
Fixpoint rooted (classes : list TypeSchema) : Prop :=
  match classes with
  | [] => False
  | [type] => extends type = None
  | type :: supers => extends type ≠ None ∧ rooted supers
  end.

(** The properties of all the classes, in the order in which the method
    goes through them: superclasses first. *)
Fixpoint all_properties (classes : list TypeSchema) : list PropertySchema :=
  match classes with
  | [] => []
  | type :: supers => all_properties supers ++ properties type
  end.

(** The names under which the properties can appear in the proxy. *)
Definition property_names (ps : list PropertySchema) : list string :=
  ps ≫= fun p => [singularName p; pluralName p].

(** The entry that a property's own statements set, and under which name. *)
Definition own_entry (this : inspected) (property : PropertySchema)
    : option (string * entry) :=
  match local_of this property with
  | [] => None
  | [x] =>
      if functional property || singularAccessor property
      then Some (singularName property, One x)
      else Some (pluralName property, Many [x])
  | l => if functional property then None else Some (pluralName property, Many l)
  end.

End inspector.

Arguments FUrl {Raw} _.
Arguments FOther {Raw} _.
Arguments Wrapped {Raw} _.
Arguments Plain {Raw} _.
Arguments One {Raw} _.
Arguments Many {Raw} _.
Arguments this_id {Raw} _.
Arguments this_field {Raw} _.
Arguments root_proxy {Raw} _.

End Codegen.

(** ** runtime/multibase/constants.ts *)

Module Multibase.

(** The codec factories of the table: [identity], [rfc4648(bitsPerChar)]
    and [baseX]. *)
Inductive CodecFactory :=
  | identity
  | rfc4648 (bitsPerChar : nat)
  | baseX.

(** A row: name, code, implementation, alphabet. *)
Definition row : Type := string * string * CodecFactory * string.

Definition row_name (t : row) : string := t.1.1.1.
Definition row_code (t : row) : string := t.1.1.2.
Definition row_implementation (t : row) : CodecFactory := t.1.2.
Definition row_alphabet (t : row) : string := t.2.

(** The one-character string with character code 0. *)
Definition nul : string := String Ascii.zero EmptyString.

Definition constants : list row :=
  [("identity", nul, identity, "");
   ("base2", "0", rfc4648 1, "01");
   ("base8", "7", rfc4648 3, "01234567");
   ("base10", "9", baseX, "0123456789");
   ("base16", "f", rfc4648 4, "0123456789abcdef");
   ("base16upper", "F", rfc4648 4, "0123456789ABCDEF");
   ("base32hex", "v", rfc4648 5, "0123456789abcdefghijklmnopqrstuv");
   ("base32hexupper", "V", rfc4648 5, "0123456789ABCDEFGHIJKLMNOPQRSTUV");
   ("base32hexpad", "t", rfc4648 5, "0123456789abcdefghijklmnopqrstuv=");
   ("base32hexpadupper", "T", rfc4648 5, "0123456789ABCDEFGHIJKLMNOPQRSTUV=");
   ("base32", "b", rfc4648 5, "abcdefghijklmnopqrstuvwxyz234567");
   ("base32upper", "B", rfc4648 5, "ABCDEFGHIJKLMNOPQRSTUVWXYZ234567");
   ("base32pad", "c", rfc4648 5, "abcdefghijklmnopqrstuvwxyz234567=");
   ("base32padupper", "C", rfc4648 5, "ABCDEFGHIJKLMNOPQRSTUVWXYZ234567=");
   ("base32z", "h", rfc4648 5, "ybndrfg8ejkmcpqxot1uwisza345h769");
   ("base36", "k", baseX, "0123456789abcdefghijklmnopqrstuvwxyz");
   ("base36upper", "K", baseX, "0123456789ABCDEFGHIJKLMNOPQRSTUVWXYZ");
   ("base58btc", "z", baseX,
    "123456789ABCDEFGHJKLMNPQRSTUVWXYZabcdefghijkmnopqrstuvwxyz");
   ("base58flickr", "Z", baseX,
    "123456789abcdefghijkmnopqrstuvwxyzABCDEFGHJKLMNPQRSTUVWXYZ");
   ("base64", "m", rfc4648 6,
    "ABCDEFGHIJKLMNOPQRSTUVWXYZabcdefghijklmnopqrstuvwxyz0123456789+/");
   ("base64pad", "M", rfc4648 6,
    "ABCDEFGHIJKLMNOPQRSTUVWXYZabcdefghijklmnopqrstuvwxyz0123456789+/=");
   ("base64url", "u", rfc4648 6,
    "ABCDEFGHIJKLMNOPQRSTUVWXYZabcdefghijklmnopqrstuvwxyz0123456789-_");
   ("base64urlpad", "U", rfc4648 6,
    "ABCDEFGHIJKLMNOPQRSTUVWXYZabcdefghijklmnopqrstuvwxyz0123456789-_=")].

Section tables.
(** The class of base.ts and its constructor,
    [new Base(name, code, implementation, alphabet)]. *)
Variable Base : Type.
Variable new_Base : string → string → CodecFactory → string → Base.

(** [table.reduce((prev, tupple) => { prev[tupple[0]] = new Base(...);
    return prev; }, {})] *)
Definition names_of (table : list row) : gmap string Base :=
  foldl (fun prev tupple =>
           <[row_name tupple :=
               new_Base (row_name tupple) (row_code tupple)
                        (row_implementation tupple) (row_alphabet tupple)]> prev)
        ∅ table.

(** [table.reduce((prev, tupple) => { prev[tupple[1]] = names[tupple[0]];
    return prev; }, {})]; a key holds [None] when it was assigned
    [undefined]. *)
Definition codes_of (table : list row) : gmap string (option Base) :=
  foldl (fun prev tupple => <[row_code tupple := names_of table !! row_name tupple]> prev)
        ∅ table.

(** The base that a row makes. *)
Definition base_of (t : row) : Base :=
  new_Base (row_name t) (row_code t) (row_implementation t) (row_alphabet t).

Definition names : gmap string Base := names_of constants.
Definition codes : gmap string (option Base) := codes_of constants.

End tables.

(** The characters of a string. *)
Fixpoint chars (s : string) : list Ascii.ascii :=
  match s with
  | EmptyString => []
  | String c rest => c :: chars rest
  end.

(** The padding character, [=]. *)
Definition pad : Ascii.ascii := Ascii.ascii_of_nat 61.

(** The characters of an alphabet other than the padding character. *)
Definition digits (alphabet : string) : list Ascii.ascii :=
  filter (fun c => c ≠ pad) (chars alphabet).

End Multibase.

(** ** Further sample inputs *)

Module Samples.
Import Send.

Definition personal_inboxes : ExtractInboxesParameters :=
  {| recipients := [alice; bob; carol; erin];
     preferSharedInbox := None; excludeBaseUris := None |}.

Definition shared_inboxes : ExtractInboxesParameters :=
  {| recipients := [carol; dave];
     preferSharedInbox := Some true;
     excludeBaseUris :=
       Some [mkURL "https://other.example/" "https://other.example"] |}.

(** The collaborators of [sample_env], with a [fetch] that rejects. *)
Definition offline_env : SendEnv := {|
  Activity := @Activity sample_env;
  DocumentLoader := @DocumentLoader sample_env;
  activity_id := @activity_id sample_env;
  activity_actorId := @activity_actorId sample_env;
  validateCryptoKey := @validateCryptoKey sample_env;
  signObject := @signObject sample_env;
  toJsonLd := @toJsonLd sample_env;
  signJsonLd := @signJsonLd sample_env;
  signRequest := @signRequest sample_env;
  JSON_stringify := @JSON_stringify sample_env;
  fetch := fun _ => inl (Error "connection refused")
|}.

Definition offline_activity : @Activity offline_env := sample_activity.

Definition offline_send : @SendActivityParameters offline_env :=
  {| activity := offline_activity; keys := [ed_key];
     inbox := example_inbox; contextLoader := None; documentLoader := None;
     headers := None |}.

(** The request that [offline_send] tries to fetch. *)
Definition offline_request : Request :=
  {| req_url := example_inbox; req_method := "POST";
     req_headers := [("Content-Type", "application/activity+json")];
     req_body := "{proof:[https://example.com/key2],signature:}" |}.

(** A field whose slots are all resolved, one object having no identity. *)
Definition resolved_slots : @Property.instance Property.sample_resolver :=
  {| Property.field := [Property.Inline (Property.person "https://example.com/a");
                        Property.Inline Property.anonymous];
     Property._cachedJsonLd := None; Property._documentLoader := None |}.


(** A small hierarchy: [Create] extends [Activity] extends [Object]; the
    actor property is declared by [Activity]. *)
Definition actor_schema : Codegen.PropertySchema :=
  {| Codegen.singularName := "actor"; Codegen.pluralName := "actors";
     Codegen.uri := "https://www.w3.org/ns/activitystreams#actor";
     Codegen.range := ["https://www.w3.org/ns/activitystreams#Object"];
     Codegen.functional := false; Codegen.singularAccessor := true |}.

Definition name_schema : Codegen.PropertySchema :=
  {| Codegen.singularName := "name"; Codegen.pluralName := "names";
     Codegen.uri := "https://www.w3.org/ns/activitystreams#name";
     Codegen.range := ["http://www.w3.org/2001/XMLSchema#string"];
     Codegen.functional := false; Codegen.singularAccessor := true |}.

Definition published_schema : Codegen.PropertySchema :=
  {| Codegen.singularName := "published"; Codegen.pluralName := "publisheds";
     Codegen.uri := "https://www.w3.org/ns/activitystreams#published";
     Codegen.range := ["http://www.w3.org/2001/XMLSchema#dateTime"];
     Codegen.functional := true; Codegen.singularAccessor := false |}.

Definition Object_type : Codegen.TypeSchema :=
  {| Codegen.name := "Object"; Codegen.extends := None;
     Codegen.properties := [name_schema; published_schema] |}.
Definition Activity_type : Codegen.TypeSchema :=
  {| Codegen.name := "Activity"; Codegen.extends := Some "as:Object";
     Codegen.properties := [actor_schema] |}.
Definition Create_type : Codegen.TypeSchema :=
  {| Codegen.name := "Create"; Codegen.extends := Some "as:Activity";
     Codegen.properties := [] |}.
(** A type whose supertype is not in the schema, and two types that extend
    each other. *)
Definition Orphan_type : Codegen.TypeSchema :=
  {| Codegen.name := "Orphan"; Codegen.extends := Some "as:Nowhere";
     Codegen.properties := [] |}.
Definition Ping_type : Codegen.TypeSchema :=
  {| Codegen.name := "Ping"; Codegen.extends := Some "as:Pong";
     Codegen.properties := [] |}.
Definition Pong_type : Codegen.TypeSchema :=
  {| Codegen.name := "Pong"; Codegen.extends := Some "as:Ping";
     Codegen.properties := [] |}.

Definition schema_types : gmap string Codegen.TypeSchema :=
  <["as:Object" := Object_type]>
  (<["as:Activity" := Activity_type]>
  (<["as:Create" := Create_type]>
  (<["as:Orphan" := Orphan_type]>
  (<["as:Ping" := Ping_type]>
  (<["as:Pong" := Pong_type]> ∅))))).

(** Field names and scalar ranges of the sample classes. *)
Definition sample_fieldName (uri : string) : string := "#_" +:+ uri.
Definition sample_scalar (range : list string) : bool :=
  bool_decide (range ≠ ["https://www.w3.org/ns/activitystreams#Object"]).

(** A [Create] with one actor, given by URL, two names and no date. *)
Definition sample_create : Codegen.inspected string :=
  {| Codegen.this_id := Some (mkURL "https://example.com/create" "https://example.com");
     Codegen.this_field := fun f =>
       if String.eqb f (sample_fieldName (Codegen.uri actor_schema))
       then [Codegen.FUrl (mkURL "https://example.com/alice" "https://example.com")]
       else if String.eqb f (sample_fieldName (Codegen.uri name_schema))
       then [Codegen.FOther "first"; Codegen.FOther "second"]
       else [] |}.

Definition blank_create : Codegen.inspected string :=
  {| Codegen.this_id := Some (mkURL "https://example.com/create" "https://example.com");
     Codegen.this_field := fun _ => [] |}.

(** The members of [Object.prototype]. *)
Definition Object_prototype : list string :=
  ["constructor"; "hasOwnProperty"; "isPrototypeOf"; "propertyIsEnumerable";
   "toLocaleString"; "toString"; "valueOf"; "__defineGetter__"; "__defineSetter__";
   "__lookupGetter__"; "__lookupSetter__"; "__proto__"].

Definition sample_inherited (name : string) : bool :=
  bool_decide (name ∈ Object_prototype).

Definition sample_proxy : gmap string (Codegen.entry string) :=
  Codegen.getCustomInspectProxy string sample_scalar sample_fieldName sample_inherited
    [Create_type; Activity_type; Object_type] sample_create.

(** A class with a property called like an inherited member, and an
    instance with one value of it. *)
Definition constructor_schema : Codegen.PropertySchema :=
  {| Codegen.singularName := "constructor"; Codegen.pluralName := "constructors";
     Codegen.uri := "https://example.com/ns#constructor";
     Codegen.range := ["http://www.w3.org/2001/XMLSchema#string"];
     Codegen.functional := false; Codegen.singularAccessor := false |}.

Definition built_thing : Codegen.inspected string :=
  {| Codegen.this_id := None;
     Codegen.this_field := fun f =>
       if String.eqb f (sample_fieldName (Codegen.uri constructor_schema))
       then [Codegen.FOther "factory"] else [] |}.

(** A base, taken as the arguments of its constructor. *)
Definition sample_Base (n c : string) (f : Multibase.CodecFactory) (a : string)
    : Multibase.row := (n, c, f, a).

Definition base58btc : Multibase.row :=
  ("base58btc", "z", Multibase.baseX,
   "123456789ABCDEFGHJKLMNPQRSTUVWXYZabcdefghijkmnopqrstuvwxyz").
Definition base32pad : Multibase.row :=
  ("base32pad", "c", Multibase.rfc4648 5, "abcdefghijklmnopqrstuvwxyz234567=").

End Samples.

(** * Properties *)

Section monad_facts.
Context {Ev : Type}.

Lemma bind_call_inl {A B} (ev : Ev) e (f : A → M Ev B) :
  bind (call ev (inl e)) f = ([ev], inl e).
Proof. done. Qed.

Lemma bind_call_inr {A B} (ev : Ev) a (f : A → M Ev B) :
  bind (call ev (inr a)) f = (ev :: (f a).1, (f a).2).
Proof. done. Qed.

Lemma bind_log {B} (ev : Ev) (f : () → M Ev B) :
  bind (log ev) f = (ev :: (f ()).1, (f ()).2).
Proof. done. Qed.

Lemma bind_ret {A B} (a : A) (f : A → M Ev B) :
  bind (ret a) f = f a.
Proof. unfold bind, ret; simpl. by destruct (f a). Qed.

Lemma bind_fst_inr {A B} (m : M Ev A) (f : A → M Ev B) a :
  m.2 = inr a → bind m f = (m.1 ++ (f a).1, (f a).2).
Proof. unfold bind. by intros ->. Qed.

Lemma bind_fst_inl {A B} (m : M Ev A) (f : A → M Ev B) e :
  m.2 = inl e → bind m f = (m.1, inl e).
Proof. unfold bind. by intros ->. Qed.

Lemma filter_all {A} (P : A → Prop) `{!∀ x, Decision (P x)} (l : list A) :
  Forall P l → filter P l = l.
Proof.
  induction 1 as [|x l Hx _ IH]; [done|]. by rewrite filter_cons_True, IH.
Qed.

Lemma filter_none {A} (P : A → Prop) `{!∀ x, Decision (P x)} (l : list A) :
  Forall (fun x => ¬ P x) l → filter P l = [].
Proof.
  induction 1 as [|x l Hx _ IH]; [done|]. by rewrite filter_cons_False.
Qed.

Lemma bind_ext {A B} (m : M Ev A) (f g : A → M Ev B) :
  (∀ a, f a = g a) → bind m f = bind m g.
Proof. intros Hfg. unfold bind. destruct m.2; [done|]. by rewrite Hfg. Qed.

Lemma bind_Forall {A B} (P : Ev → Prop) (m : M Ev A) (f : A → M Ev B) :
  Forall P m.1 → (∀ a, m.2 = inr a → Forall P (f a).1) → Forall P (bind m f).1.
Proof.
  intros Hm Hf. unfold bind. destruct m.2 as [e|a]; [done|].
  simpl. apply Forall_app. split; [done|by apply Hf].
Qed.

End monad_facts.

Ltac events_Forall :=
  repeat first
    [ apply bind_Forall; [|intros ? _]
    | progress case_match
    | by repeat constructor ].

Ltac run_calls :=
  rewrite ?bind_call_inl, ?bind_call_inr, ?bind_log, ?bind_ret; cbn beta.

Import Send.

Section extractInboxes_facts.

Lemma extractInboxes_step_kept p inboxes recipient :
  extractInboxes_step (preferSharedInbox p) (excludeBaseUris p) inboxes recipient =
  match kept p recipient with
  | Some kv => add_target kv inboxes
  | None => inboxes
  end.
Proof.
  unfold extractInboxes_step, kept, add_target.
  destruct (chosen_inbox _ recipient) as [inbox|]; simpl; [|done].
  destruct (recipient_id recipient) as [rid|]; simpl; [|done].
  destruct (is_excluded _ inbox); simpl; [done|].
  apply map_eq; intros k.
  destruct (inboxes !! href inbox) as [s|] eqn:Hs; simpl.
  - destruct (decide (href inbox = k)) as [<-|Hne].
    + by rewrite lookup_alter_eq, lookup_insert_eq, Hs.
    + by rewrite lookup_alter_ne, lookup_insert_ne.
  - destruct (decide (href inbox = k)) as [<-|Hne].
    + by rewrite lookup_alter_eq, !lookup_insert_eq.
    + by rewrite lookup_alter_ne, !lookup_insert_ne.
Qed.

Lemma extractInboxes_foldl p rs inboxes :
  foldl (extractInboxes_step (preferSharedInbox p) (excludeBaseUris p)) inboxes rs =
  foldl (fun m kv => add_target kv m) inboxes (omap (kept p) rs).
Proof.
  revert inboxes. induction rs as [|r rs IH]; intros inboxes; simpl; [done|].
  rewrite extractInboxes_step_kept.
  destruct (kept p r); simpl; apply IH.
Qed.

Lemma add_targets_lookup kvs (inboxes : gmap string (gset string)) key :
  foldl (fun m kv => add_target kv m) inboxes kvs !! key =
  match inboxes !! key with
  | Some s => Some (s ∪ ids_for key kvs)
  | None => if decide (key ∈ kvs.*1) then Some (ids_for key kvs) else None
  end.
Proof.
  revert inboxes. induction kvs as [|[k v] kvs IH]; intros inboxes.
  - unfold ids_for; simpl. destruct (inboxes !! key); [|done].
    f_equal. set_solver.
  - simpl foldl. rewrite IH. unfold add_target, ids_for. cbn [fst snd].
    rewrite fmap_cons. cbn [fst].
    destruct (decide (k = key)) as [->|Hne].
    + rewrite lookup_insert_eq, filter_cons_True, fmap_cons by done.
      cbn [snd]. rewrite list_to_set_cons.
      destruct (inboxes !! key); cbn [default].
      * f_equal. set_solver.
      * rewrite decide_True by left. f_equal. set_solver.
    + rewrite lookup_insert_ne, filter_cons_False by done.
      destruct (inboxes !! key); [done|].
      destruct (decide (key ∈ kvs.*1)) as [Hin|Hin].
      * rewrite decide_True; [done|by right].
      * rewrite decide_False; [done|].
        intros [?|?]%elem_of_cons; congruence.
Qed.

Lemma list_to_map_keyed (f : string → gset string) (kvs : list (string * string)) key :
  (list_to_map ((fun kv => (kv.1, f kv.1)) <$> kvs) : gmap string (gset string)) !! key =
  if decide (key ∈ kvs.*1) then Some (f key) else None.
Proof.
  induction kvs as [|[k v] kvs IH].
  - simpl. by rewrite lookup_empty.
  - rewrite !fmap_cons, list_to_map_cons. cbn [fst].
    destruct (decide (k = key)) as [->|Hne].
    + rewrite lookup_insert_eq. by rewrite decide_True by left.
    + rewrite lookup_insert_ne, IH by done.
      destruct (decide (key ∈ kvs.*1)) as [Hin|Hin].
      * rewrite decide_True; [done|by right].
      * rewrite decide_False; [done|].
        intros [?|?]%elem_of_cons; congruence.
Qed.

Lemma is_excluded_ref p inbox :
  is_excluded (excludeBaseUris p) inbox = bool_decide (excluded_ref p inbox).
Proof.
  unfold is_excluded, excluded_ref.
  destruct (excludeBaseUris p) as [us|]; cbn [default].
  2:{ symmetry. apply bool_decide_eq_false_2. by intros ?%Exists_nil. }
  induction us as [|u us IH]; cbn [existsb].
  { symmetry. apply bool_decide_eq_false_2. by intros ?%Exists_nil. }
  rewrite IH. destruct (String.eqb (origin u) (origin inbox)) eqn:Hu; cbn [orb].
  - apply String.eqb_eq in Hu. symmetry. apply bool_decide_eq_true_2. by left.
  - apply String.eqb_neq in Hu. apply bool_decide_ext.
    split; [by right|]. by intros [?|?]%Exists_cons.
Qed.

Lemma kept_kept_ref p recipient : kept p recipient = kept_ref p recipient.
Proof.
  unfold kept, kept_ref, chosen_inbox, chosen_ref.
  assert (Hex : ∀ inbox rid,
    (if is_excluded (excludeBaseUris p) inbox then None else Some (href inbox, href rid))
    = if decide (excluded_ref p inbox) then None else Some (href inbox, href rid)).
  { intros inbox rid. rewrite is_excluded_ref.
    by destruct (decide (excluded_ref p inbox));
      [rewrite bool_decide_eq_true_2|rewrite bool_decide_eq_false_2]. }
  destruct (preferSharedInbox p) as [[|]|]; simpl;
    destruct (endpoints recipient ≫= sharedInbox) as [shared|]; simpl;
    try (destruct (inboxId recipient) as [inbox|]; simpl; [|done]);
    (destruct (recipient_id recipient) as [rid|]; simpl; [apply Hex|done]).
Qed.

(** The lookup form of the inbox target map. *)
Lemma extractInboxes_lookup p key :
  extractInboxes p !! key =
  if decide (key ∈ (omap (kept_ref p) (recipients p)).*1)
  then Some (targets p key) else None.
Proof.
  unfold extractInboxes. rewrite extractInboxes_foldl, add_targets_lookup.
  rewrite lookup_empty. unfold targets, ids_for.
  by rewrite (list_omap_ext (kept p) (kept_ref p) (recipients p) (recipients p))
    by (apply Forall_Forall2_diag, Forall_forall; intros r _; by rewrite kept_kept_ref).
Qed.

(** C4: [extractInboxes] is equal, as a finite map from inbox URL strings to
    sets of identity URL strings, to the reference definition
    [extractInboxes_ref]: shared inbox when preferred and present, else the
    personal inbox; recipients without inbox or identity, or with an excluded
    inbox origin, skipped; identities grouped by the exact inbox [href]. *)
Theorem extractInboxes_refines (p : ExtractInboxesParameters) :
  extractInboxes p = extractInboxes_ref p.
Proof.
  apply map_eq; intros key.
  rewrite extractInboxes_lookup. unfold extractInboxes_ref.
  by rewrite list_to_map_keyed.
Qed.

Example extractInboxes_personal :
  extractInboxes {| recipients := [alice; bob; carol; erin];
                    preferSharedInbox := None; excludeBaseUris := None |} =
  {[ "https://example.com/users/inbox" :=
       {[ "https://example.com/alice"; "https://example.com/bob" ]};
     "https://example.com/carol/inbox" := {[ "https://example.com/carol" ]} ]}.
Proof. by vm_compute. Qed.

(** With the preference, the shared inbox is the key; an excluded origin
    drops the recipient whatever the path of the excluding URL. *)
Example extractInboxes_shared :
  extractInboxes {| recipients := [carol; dave];
                    preferSharedInbox := Some true;
                    excludeBaseUris :=
                      Some [mkURL "https://other.example/" "https://other.example"] |} =
  {[ "https://example.com/inbox" := {[ "https://example.com/carol" ]} ]}.
Proof. by vm_compute. Qed.

End extractInboxes_facts.

Section sendActivity_facts.
Context `{SendEnv}.

(** C2: when the activity has no identity, or no actor attribution, or the
    key list is empty, [sendActivity] throws a [TypeError] and its event list
    is empty: no collaborator (loader, signer, serializer, [fetch]) was
    called. *)
Theorem sendActivity_validation_failure (p : SendActivityParameters) :
  activity_id (activity p) = None ∨
  activity_actorId (activity p) = None ∨
  keys p = [] →
  ∃ msg, sendActivity p = ([], inl (TypeError msg)).
Proof.
  intros Hpre. unfold sendActivity.
  destruct (activity_id (activity p)) as [aid|]; [|by eexists].
  destruct (activity_actorId (activity p)) as [actor|]; [|by eexists].
  destruct Hpre as [?|[?|Hkeys]]; [done|done|].
  rewrite Hkeys. by eexists.
Qed.

(** Every event of the key loop is a validation or a proof attachment. *)
Lemma keys_loop_events p ks st :
  Forall (fun ev => is_validate ev || is_signObject ev = true) (keys_loop p ks st).1.
Proof.
  revert st. induction ks as [|k rest IH]; intros st; simpl; [constructor|].
  destruct (validateCryptoKey (privateKey k) "private") as [e|[]].
  { rewrite bind_call_inl. by repeat constructor. }
  rewrite bind_call_inr. simpl. constructor; [done|].
  destruct (bool_decide (rsaKey st = None) && is_rsa k); [apply IH|].
  destruct (is_ed25519 k); [|apply IH].
  destruct (signObject _ _ _ _ _) as [e|signed].
  { rewrite bind_call_inl. by repeat constructor. }
  rewrite bind_call_inr. simpl. constructor; [done|apply IH].
Qed.

(** When the loop completes, every key has been validated, in order. *)
Lemma keys_loop_validates_all p ks st st' :
  (keys_loop p ks st).2 = inr st' →
  filter (fun ev => is_validate ev = true) (keys_loop p ks st).1 = validations ks.
Proof.
  revert st. induction ks as [|k rest IH]; intros st; simpl; [done|].
  destruct (validateCryptoKey (privateKey k) "private") as [e|[]].
  { by rewrite bind_call_inl. }
  rewrite bind_call_inr. simpl. rewrite filter_cons_True by done.
  intros Hres. f_equal.
  destruct (bool_decide (rsaKey st = None) && is_rsa k); [by eapply IH|].
  destruct (is_ed25519 k); [|by eapply IH].
  revert Hres. destruct (signObject _ _ _ _ _) as [e|signed].
  { by rewrite bind_call_inl. }
  rewrite bind_call_inr. simpl. rewrite filter_cons_False by done. apply IH.
Qed.

(** A proof attachment in the loop comes after the validation of its key and
    of the keys before it, and of no other key. *)
Lemma keys_loop_sign_after_validate p ks st pre object k post :
  (keys_loop p ks st).1 = pre ++ EvSignObject object k :: post →
  ∃ ks1 ks2, ks = ks1 ++ k :: ks2 ∧
    filter (fun ev => is_validate ev = true) pre = validations (ks1 ++ [k]).
Proof.
  revert st pre. induction ks as [|k0 rest IH]; intros st pre; simpl.
  { by destruct pre. }
  assert (Hrest : ∀ st0 pre0,
    (keys_loop p rest st0).1 = pre0 ++ EvSignObject object k :: post →
    ∃ ks1 ks2, k0 :: rest = ks1 ++ k :: ks2 ∧
      EvValidate (privateKey k0) "private"
        :: filter (fun ev => is_validate ev = true) pre0 = validations (ks1 ++ [k])).
  { intros st0 pre0 Hsplit. destruct (IH _ _ Hsplit) as (ks1 & ks2 & -> & Hval).
    exists (k0 :: ks1), ks2. split; [done|]. simpl. by rewrite Hval. }
  destruct (validateCryptoKey (privateKey k0) "private") as [e|[]].
  { rewrite bind_call_inl. simpl. destruct pre as [|? [|]]; by intros [=]. }
  rewrite bind_call_inr. simpl.
  destruct pre as [|ev0 pre]; [by intros [=]|].
  simpl. intros [= <- Hsplit]. rewrite filter_cons_True by done.
  revert Hsplit.
  destruct (bool_decide (rsaKey st = None) && is_rsa k0); [apply Hrest|].
  destruct (is_ed25519 k0); [|apply Hrest].
  destruct (signObject _ _ _ _ _) as [e|signed].
  { rewrite bind_call_inl. simpl. destruct pre as [|? [|]]; intros [=]; subst.
    exists [], rest. done. }
  rewrite bind_call_inr. simpl.
  destruct pre as [|ev1 pre]; simpl.
  { intros [= <- <- _]. by exists [], rest. }
  intros [= <- Hsplit]. rewrite filter_cons_False by done.
  by eapply Hrest.
Qed.

Lemma rsa_not_ed25519 k : is_rsa k = true → is_ed25519 k = false.
Proof.
  unfold is_rsa, is_ed25519. intros Hrsa%String.eqb_eq. by rewrite Hrsa.
Qed.

Lemma loop_result_capture pc k rest signed :
  is_rsa k = true →
  loop_result pc None (k :: rest) signed = loop_result pc (Some k) rest signed.
Proof.
  intros Hrsa. unfold loop_result. cbn [find]. rewrite Hrsa.
  by rewrite filter_cons_False by (by rewrite rsa_not_ed25519).
Qed.

Lemma loop_result_ed25519 pc r k rest signed :
  (r = None → is_rsa k = false) → is_ed25519 k = true →
  loop_result pc r (k :: rest) signed = loop_result true r rest signed.
Proof.
  intros Hrsa Hed. unfold loop_result. cbn [find].
  rewrite filter_cons_True by done. rewrite orb_true_r. cbn [orb].
  destruct r; [done|]. by rewrite Hrsa.
Qed.

Lemma loop_result_skip pc r k rest signed :
  (r = None → is_rsa k = false) → is_ed25519 k = false →
  loop_result pc r (k :: rest) signed = loop_result pc r rest signed.
Proof.
  intros Hrsa Hed. unfold loop_result. cbn [find].
  rewrite filter_cons_False by (by rewrite Hed).
  destruct r; [done|]. by rewrite Hrsa.
Qed.

Lemma keys_loop_layers p ks a pc r :
  all_valid ks →
  let m := attach_proofs (documentLoader p) (contextLoader p)
             (filter (fun k => is_ed25519 k = true) ks) a in
  filter (fun ev => is_validate ev = false)
    (keys_loop p ks {| cur_activity := a; proofCreated := pc; rsaKey := r |}).1 = m.1 ∧
  (keys_loop p ks {| cur_activity := a; proofCreated := pc; rsaKey := r |}).2
  = sum_map id (loop_result pc r ks) m.2.
Proof.
  intros Hvalid. revert a pc r.
  induction Hvalid as [|k rest Hk Hrest IH]; intros a pc r.
  { simpl. split; [done|]. unfold loop_result. simpl.
    rewrite orb_false_r. by destruct r. }
  cbn [keys_loop]. rewrite Hk, bind_call_inr. cbn [fst snd rsaKey cur_activity proofCreated].
  rewrite filter_cons_False by done.
  destruct (bool_decide (r = None) && is_rsa k) eqn:Hcap.
  - apply andb_true_iff in Hcap as [->%bool_decide_eq_true Hrsa].
    rewrite (filter_cons_False _ k) by (by rewrite rsa_not_ed25519).
    destruct (IH a pc (Some k)) as [Htr Hres].
    split; [done|]. rewrite Hres.
    destruct (attach_proofs _ _ _ _).2 as [e|signed]; [done|].
    simpl. by rewrite loop_result_capture.
  - assert (Hrsa : r = None → is_rsa k = false).
    { intros ->. apply andb_false_iff in Hcap as [Hcap%bool_decide_eq_false|Hcap]; done. }
    destruct (is_ed25519 k) eqn:Hed.
    + rewrite (filter_cons_True _ k) by done. cbn [attach_proofs].
      destruct (signObject _ _ _ _ _) as [e|signed].
      { rewrite !bind_call_inl. by split. }
      rewrite !bind_call_inr. cbn [fst snd]. rewrite filter_cons_True by done.
      destruct (IH signed true r) as [Htr Hres].
      split; [by rewrite Htr|]. rewrite Hres.
      destruct (attach_proofs _ _ _ _).2 as [e|signed']; [done|].
      simpl. by rewrite loop_result_ed25519.
    + rewrite (filter_cons_False _ k) by (by rewrite Hed).
      destruct (IH a pc r) as [Htr Hres]. split; [done|]. rewrite Hres.
      destruct (attach_proofs _ _ _ _).2 as [e|signed]; [done|].
      simpl. by rewrite loop_result_skip.
Qed.

Lemma send_signed_events p activityId st :
  Forall (fun ev => is_validate ev = false ∧ is_signObject ev = false)
         (send_signed p activityId st).1.
Proof. unfold send_signed, handle_response. events_Forall. Qed.

Lemma layered_send_signed p a activityId eds rsa :
  layered a activityId (inbox p) (contextLoader p) (documentLoader p) (headers p)
          eds rsa (logged_keys (keys p)) =
  bind (attach_proofs (documentLoader p) (contextLoader p) eds a)
       (fun signed => send_signed p activityId
          {| cur_activity := signed; proofCreated := bool_decide (eds ≠ []);
             rsaKey := rsa |}).
Proof.
  unfold layered. apply bind_ext; intros signed.
  unfold send_signed. cbn [cur_activity proofCreated rsaKey].
  destruct (toJsonLd signed "compact" (contextLoader p)) as [e|compacted]; [done|].
  rewrite !bind_call_inr.
  destruct rsa as [k|].
  - destruct (signJsonLd compacted _ _ _) as [e|wrapped]; [done|].
    rewrite !bind_call_inr. cbn [fst snd].
    destruct eds as [|ed eds]; simpl;
      destruct (signRequest _ _ _) as [e|request]; reflexivity.
  - destruct eds as [|ed eds]; reflexivity.
Qed.

(** C1: when the checks pass and every key validates, the run of
    [sendActivity], its validation events set aside, is the layered run
    [layered]: one Integrity Proof attached per Ed25519 key of the list, in
    order and before serialization; the first RSA key of the list signing
    the compacted, proof-bearing document and then the request; without an
    RSA key, or without any Ed25519 key, a warning and no signature at that
    layer, not an exception.  The key list enters only through its Ed25519
    keys, its first RSA key and what the warnings report. *)
Theorem sendActivity_layers (p : SendActivityParameters) (aid : URL) :
  activity_id (activity p) = Some aid →
  is_Some (activity_actorId (activity p)) →
  keys p ≠ [] →
  Forall (fun k => validateCryptoKey (privateKey k) "private" = inr ()) (keys p) →
  (filter (fun ev => is_validate ev = false) (sendActivity p).1, (sendActivity p).2) =
  layered (activity p) (href aid) (inbox p) (contextLoader p) (documentLoader p)
          (headers p)
          (filter (fun k => is_ed25519 k = true) (keys p))
          (find is_rsa (keys p))
          (logged_keys (keys p)).
Proof.
  intros Hid [actor Hactor] Hkeys Hvalid.
  rewrite layered_send_signed. unfold sendActivity. rewrite Hid, Hactor.
  destruct (keys p) as [|k0 ks] eqn:Hks; [done|]. cbn [length Nat.ltb Nat.leb].
  rewrite <- Hks in *.
  destruct (keys_loop_layers p (keys p) (activity p) false None Hvalid) as [Htr Hres].
  unfold bind at 1 2. rewrite Hres. unfold bind.
  destruct (attach_proofs _ _ _ _).2 as [e|signed]; simpl.
  - by rewrite Htr.
  - rewrite filter_app, Htr. unfold loop_result. cbn [orb].
    rewrite (filter_all _ (send_signed _ _ _).1); [done|].
    eapply Forall_impl; [apply send_signed_events|]. by intros ev [? _].
Qed.

(** The events of a run that passes the three checks: those of the key loop,
    followed, when the loop completes, by those of the rest. *)
Lemma sendActivity_events p :
  (sendActivity p).1 = [] ∨
  ∃ aid st0,
    activity_id (activity p) = Some aid ∧
    let loop := keys_loop p (keys p) st0 in
    match loop.2 with
    | inl e => sendActivity p = (loop.1, inl e)
    | inr st => sendActivity p =
                (loop.1 ++ (send_signed p (href aid) st).1,
                 (send_signed p (href aid) st).2)
    end.
Proof.
  unfold sendActivity.
  destruct (activity_id (activity p)) as [aid|]; [|by left].
  destruct (activity_actorId (activity p)); [|by left].
  destruct (length (keys p) <? 1)%nat; [by left|].
  right.
  exists aid, {| cur_activity := activity p; proofCreated := false; rsaKey := None |}.
  split; [done|]. cbn zeta. unfold bind.
  by destruct (keys_loop _ _ _).2.
Qed.

(** C3 (amended): in any run of [sendActivity], an Integrity Proof is
    attached with a key after that key and the keys before it in the list
    have been validated, and before the keys after it are; serialization,
    the Linked-Data Signature and the transport signature come after the
    validation of every key of the list. *)
Theorem signing_after_validation (p : SendActivityParameters) pre ev post :
  (sendActivity p).1 = pre ++ ev :: post →
  (∀ object k, ev = EvSignObject object k →
     ∃ ks1 ks2, keys p = ks1 ++ k :: ks2 ∧
       filter (fun e => is_validate e = true) pre = validations (ks1 ++ [k])) ∧
  (is_serialization ev || is_late_signing ev = true →
     filter (fun e => is_validate e = true) pre = validations (keys p)).
Proof.
  intros Hsplit.
  destruct (sendActivity_events p) as [Hnil|(aid & st0 & _ & Hrun)].
  { rewrite Hnil in Hsplit. by destruct pre. }
  cbn zeta in Hrun.
  pose proof (keys_loop_events p (keys p) st0) as Hloop.
  destruct (keys_loop p (keys p) st0).2 as [e|st] eqn:Hres.
  - rewrite Hrun in Hsplit. cbn [fst] in Hsplit. split.
    + intros object k ->. by eapply keys_loop_sign_after_validate.
    + intros Hlate. rewrite Hsplit in Hloop.
      apply Forall_app in Hloop as [_ [Hev _]%Forall_cons].
      by destruct ev.
  - rewrite Hrun in Hsplit. cbn [fst] in Hsplit.
    pose proof (send_signed_events p (href aid) st) as Htail.
    pose proof (keys_loop_validates_all p (keys p) st0 st Hres) as Hall.
    apply app_eq_app in Hsplit as [mid [[Hl Hr]|[Hl Hr]]].
    + destruct mid as [|ev' mid].
      * simpl in Hr. rewrite app_nil_r in Hl. rewrite <- Hr in Htail.
        apply Forall_cons in Htail as [[_ Hev] _]. split.
        -- by intros object k ->.
        -- intros _. by rewrite <- Hl.
      * injection Hr as <- Hpost. split.
        -- intros object k ->. by eapply keys_loop_sign_after_validate.
        -- intros Hlate. rewrite Hl in Hloop.
           apply Forall_app in Hloop as [_ [Hev _]%Forall_cons].
           by destruct ev.
    + rewrite Hr in Htail. apply Forall_app in Htail as [Hmid [[_ Hev] _]%Forall_cons].
      split.
      * by intros object k ->.
      * intros _. rewrite Hl, filter_app, Hall.
        rewrite (filter_none _ mid); [by rewrite app_nil_r|].
        eapply Forall_impl; [apply Hmid|]. intros e [He _]. by rewrite He.
Qed.

Lemma send_signed_shape p activityId st :
  ∃ pre, Forall (fun ev => is_fetch ev = false) pre ∧
    ((∃ e, send_signed p activityId st = (pre, inl e)) ∨
     (∃ request, sent_request p pre request ∧
        send_signed p activityId st =
        (pre ++ (deliver activityId (inbox p) request).1,
         (deliver activityId (inbox p) request).2))).
Proof.
  unfold send_signed, sent_request. fold (deliver activityId (inbox p)).
  destruct (toJsonLd _ _ _) as [e|compacted]; run_calls.
  { eexists. split; [|left; eexists; reflexivity]. by repeat constructor. }
  destruct (rsaKey st) as [k|].
  - destruct (signJsonLd compacted (privateKey k) (keyId k) (contextLoader p))
      as [e|wrapped]; run_calls.
    { eexists. split; [|left; eexists; reflexivity]. by repeat constructor. }
    assert (Hwarn : ∃ warned, Forall (fun ev => is_fetch ev = false) warned ∧
      (if negb (proofCreated st)
       then log (EvWarn NoProof activityId (logged_keys (keys p)))
       else ret ()) = (warned, inr ())).
    { destruct (proofCreated st); eexists; (split; [|reflexivity]); by repeat constructor. }
    destruct Hwarn as (warned & Hwarned & ->).
    destruct (signRequest (build_request (inbox p) (headers p) wrapped)
                          (privateKey k) (keyId k)) as [e|request] eqn:Hsign.
    + exists (EvToJsonLd (cur_activity st) :: EvSignJsonLd compacted k
              :: warned ++ [EvSignRequest (build_request (inbox p) (headers p) wrapped) k]).
      split.
      { repeat (constructor; [done|]). apply Forall_app. split; [done|by repeat constructor]. }
      left. by exists e.
    + exists (EvToJsonLd (cur_activity st) :: EvSignJsonLd compacted k
              :: warned ++ [EvSignRequest (build_request (inbox p) (headers p) wrapped) k]).
      split.
      { repeat (constructor; [done|]). apply Forall_app. split; [done|by repeat constructor]. }
      right. exists request. split.
      { exists wrapped. right. exists k. split; [|done]. set_solver. }
      unfold bind; simpl. by rewrite <- !app_assoc.
  - destruct (proofCreated st); simpl.
    + exists [EvToJsonLd (cur_activity st);
              EvWarn NoLinkedDataSignature activityId (logged_keys (keys p));
              EvWarn NoRequestSignature (href (inbox p)) (logged_keys (keys p))].
      split; [by repeat constructor|]. right. eexists. split; [exists compacted; by left|done].
    + exists [EvToJsonLd (cur_activity st);
              EvWarn NoLinkedDataSignature activityId (logged_keys (keys p));
              EvWarn NoProof activityId (logged_keys (keys p));
              EvWarn NoRequestSignature (href (inbox p)) (logged_keys (keys p))].
      split; [by repeat constructor|]. right. eexists. split; [exists compacted; by left|done].
Qed.

Lemma deliver_fetches activityId inbox request :
  ∃ rest, (deliver activityId inbox request).1 = EvFetch request :: rest ∧
          Forall (fun ev => is_fetch ev = false) rest.
Proof.
  unfold deliver, handle_response.
  destruct (fetch request) as [e|response]; [by exists []|].
  rewrite bind_call_inr. destruct (negb (ok response)); eexists; (split; [reflexivity|]);
    by repeat constructor.
Qed.

Lemma ok_status response : ok response = true ↔ (200 ≤ status response ≤ 299)%N.
Proof. unfold ok. rewrite andb_true_iff, !N.leb_le. done. Qed.

Lemma sendActivity_fetch_shape p request :
  EvFetch request ∈ (sendActivity p).1 →
  ∃ aid pre,
    activity_id (activity p) = Some aid ∧
    Forall (fun ev => is_fetch ev = false) pre ∧
    sent_request p pre request ∧
    sendActivity p = (pre ++ (deliver (href aid) (inbox p) request).1,
                      (deliver (href aid) (inbox p) request).2).
Proof.
  intros Hin.
  destruct (sendActivity_events p) as [Hnil|(aid & st0 & Hid & Hrun)].
  { rewrite Hnil in Hin. by apply elem_of_nil in Hin. }
  cbn zeta in Hrun.
  assert (Hloop : Forall (fun ev => is_fetch ev = false) (keys_loop p (keys p) st0).1).
  { eapply Forall_impl; [apply keys_loop_events|]. by intros []. }
  destruct (keys_loop p (keys p) st0).2 as [e|st].
  { rewrite Hrun in Hin. cbn [fst] in Hin.
    by eapply Forall_forall in Hloop; [|exact Hin]. }
  destruct (send_signed_shape p (href aid) st)
    as (pre & Hpre & [[e Hsend]|(request' & Hsent & Hsend)]).
  { rewrite Hrun, Hsend in Hin. cbn [fst] in Hin.
    apply elem_of_app in Hin as [Hin|Hin].
    - by eapply Forall_forall in Hloop; [|exact Hin].
    - by eapply Forall_forall in Hpre; [|exact Hin]. }
  destruct (deliver_fetches (href aid) (inbox p) request') as (rest & Hdel & Hrest).
  assert (request = request') as ->.
  { rewrite Hrun, Hsend, Hdel in Hin. cbn [fst] in Hin.
    apply elem_of_app in Hin as [Hin|Hin].
    { by eapply Forall_forall in Hloop; [|exact Hin]. }
    apply elem_of_app in Hin as [Hin|Hin].
    { by eapply Forall_forall in Hpre; [|exact Hin]. }
    apply elem_of_cons in Hin as [[=]|Hin]; [done|].
    by eapply Forall_forall in Hrest; [|exact Hin]. }
  exists aid, ((keys_loop p (keys p) st0).1 ++ pre). split; [done|].
  split; [by apply Forall_app|]. split.
  { destruct Hsent as [jsonLd [->|(k & Hk & Hsign)]]; exists jsonLd; [by left|].
    right. exists k. split; [|done]. apply elem_of_app. by right. }
  rewrite Hrun, Hsend. cbn [fst snd]. by rewrite app_assoc.
Qed.

(** C8: when [sendActivity] fetches [request] and gets [response], it
    returns normally exactly when the status is between 200 and 299;
    otherwise it reads the body as text (the empty string when that fails),
    logs the error and throws an [Error] whose message carries the activity
    identity, the inbox URL, the status, the status text and the body; in
    both cases [request] is the only request fetched. *)
Theorem sendActivity_delivery (p : SendActivityParameters) request response :
  EvFetch request ∈ (sendActivity p).1 →
  fetch request = inr response →
  ((sendActivity p).2 = inr () ↔ (200 ≤ status response ≤ 299)%N) ∧
  (¬ (200 ≤ status response ≤ 299)%N →
     ∃ aid pre,
       let error := match text response with inr body => body | inl _ => "" end in
       activity_id (activity p) = Some aid ∧
       (sendActivity p).1 =
         pre ++ [EvFetch request; EvText response;
                 EvLogError (href aid) (href (inbox p)) (status response)
                            (statusText response) error] ∧
       (sendActivity p).2 =
         inl (Error ("Failed to send activity " +:+ href aid +:+ " to " +:+
                     href (inbox p) +:+ " (" +:+ pretty (status response) +:+ " " +:+
                     statusText response +:+ "):" +:+ nl +:+ error))) ∧
  filter (fun ev => is_fetch ev = true) (sendActivity p).1 = [EvFetch request].
Proof.
  intros Hin Hfetch.
  destruct (sendActivity_fetch_shape p request Hin) as (aid & pre & Hid & Hpre & _ & Hrun).
  rewrite Hrun. cbn [fst snd]. unfold deliver. rewrite Hfetch, bind_call_inr.
  cbn [fst snd]. rewrite filter_app, (filter_none _ pre), filter_cons_True; [|done|];
    [|eapply Forall_impl; [apply Hpre|]; by intros ev ->].
  unfold handle_response. rewrite <- ok_status.
  destruct (ok response) eqn:Hok; cbn [negb].
  - split; [done|]. split; [done|]. done.
  - split; [done|]. split; [|done].
    intros _. exists aid, pre. cbn zeta. split; [done|]. split; done.
Qed.

(** Header names are compared through their lower-case forms. *)
Lemma same_name_eq a b : same_name a b = true ↔ lower a = lower b.
Proof. apply String.eqb_eq. Qed.

Lemma same_name_trans_false n name other :
  same_name n name = true → same_name other name = false → same_name n other = false.
Proof.
  rewrite same_name_eq. intros Heq Hne.
  apply not_true_is_false. rewrite same_name_eq. intros Heq'.
  apply not_true_iff_false in Hne. apply Hne. apply same_name_eq. congruence.
Qed.

Lemma Headers_set_filter_other name value other h :
  same_name other name = false →
  filter (fun nv => same_name nv.1 other = true) (Headers_set name value h) =
  filter (fun nv => same_name nv.1 other = true) h.
Proof.
  intros Hother. induction h as [|[n v] rest IH]; cbn [Headers_set].
  - rewrite filter_cons_False; [done|]. simpl.
    rewrite not_true_iff_false. apply not_true_is_false.
    rewrite same_name_eq. intros Heq. apply not_true_iff_false in Hother.
    apply Hother. by apply same_name_eq.
  - destruct (same_name n name) eqn:Hn.
    + rewrite !filter_cons_False
        by (simpl; rewrite not_true_iff_false; by eapply same_name_trans_false).
      rewrite list_filter_filter. apply list_filter_iff. intros [n' v']; simpl.
      split; [by intros [? _]|]. intros Hn'. split; [done|].
      apply not_true_is_false. rewrite same_name_eq. intros Heq.
      apply not_true_iff_false in Hother. apply Hother. apply same_name_eq.
      apply same_name_eq in Hn'. congruence.
    + rewrite !filter_cons. simpl. by rewrite IH.
Qed.

Lemma Headers_set_filter_same name value asked h :
  same_name asked name = true →
  ∃ n, filter (fun nv => same_name nv.1 asked = true) (Headers_set name value h)
       = [(n, value)].
Proof.
  intros Hasked. apply same_name_eq in Hasked.
  induction h as [|[n v] rest IH]; cbn [Headers_set].
  - exists name. rewrite filter_cons_True; [done|]. simpl. by apply same_name_eq.
  - destruct (same_name n name) eqn:Hn.
    + exists n. apply same_name_eq in Hn.
      rewrite filter_cons_True by (simpl; apply same_name_eq; congruence).
      f_equal. rewrite list_filter_filter. apply filter_none.
      apply Forall_forall. intros [n' v'] _ [Hsame Hdiff]. simpl in *.
      apply same_name_eq in Hsame. apply not_true_iff_false in Hdiff.
      apply Hdiff. apply same_name_eq. congruence.
    + destruct IH as [n0 IH]. exists n0.
      rewrite filter_cons_False; [done|]. simpl. rewrite same_name_eq.
      apply not_true_iff_false in Hn. intros Heq. apply Hn. apply same_name_eq.
      congruence.
Qed.

Lemma Headers_get_set name value asked h :
  Headers_get asked (Headers_set name value h) =
  if same_name asked name then Some value else Headers_get asked h.
Proof.
  unfold Headers_get. destruct (same_name asked name) eqn:Hasked.
  - destruct (Headers_set_filter_same name value asked h Hasked) as [n ->]. done.
  - by rewrite Headers_set_filter_other.
Qed.

(** C10: the request that [sendActivity] fetches has the content type
    [application/activity+json] under every spelling of the header name,
    whatever the caller supplied for it, and every other header as the
    caller supplied it.  When the run signs the request, this is so for the
    header names that [signRequest] keeps; a run that does not sign the
    request fetches the request as built, and it is so for every name. *)
Theorem sendActivity_content_type (p : SendActivityParameters) request name :
  EvFetch request ∈ (sendActivity p).1 →
  (∀ built k, EvSignRequest built k ∈ (sendActivity p).1 → signRequest_keeps name) →
  Headers_get name (req_headers request) =
    if same_name name "Content-Type" then Some "application/activity+json"
    else Headers_get name (Headers_new (headers p)).
Proof.
  intros Hin Hkeeps.
  destruct (sendActivity_fetch_shape p request Hin)
    as (aid & pre & _ & _ & [jsonLd Hsent] & Hrun).
  cbn zeta in Hsent. destruct Hsent as [->|(k & Hk & Hsign)].
  - unfold build_request; cbn [req_headers]. apply Headers_get_set.
  - assert (Hkeep : signRequest_keeps name).
    { apply (Hkeeps (build_request (inbox p) (headers p) jsonLd) k).
      rewrite Hrun. cbn [fst]. apply elem_of_app. by left. }
    rewrite (Hkeep _ _ _ _ Hsign).
    unfold build_request; cbn [req_headers]. apply Headers_get_set.
Qed.

End sendActivity_facts.

Section send_examples.
#[local] Existing Instance sample_env.

Lemma sendActivity_validation_failure_witness :
  ∃ msg, sendActivity (sample_send sample_activity [] example_inbox None)
         = ([], inl (TypeError msg)).
Proof.
  apply (sendActivity_validation_failure
           (sample_send sample_activity [] example_inbox None)).
  right; right; reflexivity.
Defined.

(** C3, as stated, fails: with an Ed25519 key followed by a key that does
    not validate, the proof is attached with the first key before the second
    one is validated. *)
Lemma signing_before_validation :
  ¬ ∀ (E : SendEnv) (p : SendActivityParameters), validated_before_any_signing p.
Proof.
  intros Hclaim.
  pose proof (Hclaim sample_env
    (sample_send sample_activity [ed_key; public_key] example_inbox None)
    [EvValidate (privateKey ed_key) "private"]
    (EvSignObject (sample_activity : @Activity sample_env) ed_key)
    [EvValidate (privateKey public_key) "private"]
    eq_refl eq_refl public_key) as Hin.
  assert (Hmem : public_key ∈ [ed_key; public_key]) by (right; left).
  apply Hin, list_elem_of_singleton in Hmem. discriminate Hmem.
Qed.

Example interleaved_send_run :
  sendActivity interleaved_send =
  ([EvValidate (privateKey ed_key) "private";
    EvSignObject sample_activity ed_key;
    EvValidate (privateKey public_key) "private"],
   inl (TypeError "The key is not a private key.")).
Proof. reflexivity. Qed.

Example down_send_run :
  sendActivity down_send =
  ([EvValidate (privateKey rsa_key) "private";
    EvValidate (privateKey ed_key) "private";
    EvSignObject sample_activity ed_key;
    EvToJsonLd {| sample_id := sample_id sample_activity;
                  sample_actor := sample_actor sample_activity;
                  sample_proofs := ["https://example.com/key2"] |};
    EvSignJsonLd
      (sample_toJsonLd {| sample_id := sample_id sample_activity;
                          sample_actor := sample_actor sample_activity;
                          sample_proofs := ["https://example.com/key2"] |}) rsa_key;
    EvSignRequest
      {| req_url := down_inbox;
         req_method := "POST";
         req_headers := [("Content-Type", "application/activity+json")];
         req_body := req_body down_request |} rsa_key;
    EvFetch down_request;
    EvText down_response;
    EvLogError "https://example.com/activity" "https://down.example/inbox" 500
               "Internal Server Error" "boom"],
   inl (Error ("Failed to send activity https://example.com/activity to " +:+
               "https://down.example/inbox (500 Internal Server Error):" +:+ nl +:+
               "boom"))).
Proof. vm_compute. reflexivity. Qed.

Example layered_send_run :
  sendActivity layered_send =
  ([EvValidate (privateKey rsa_key) "private";
    EvValidate (privateKey ed_key) "private";
    EvSignObject sample_activity ed_key;
    EvValidate (privateKey rsa_key') "private";
    EvToJsonLd {| sample_id := sample_id sample_activity;
                  sample_actor := sample_actor sample_activity;
                  sample_proofs := ["https://example.com/key2"] |};
    EvSignJsonLd
      (sample_toJsonLd {| sample_id := sample_id sample_activity;
                          sample_actor := sample_actor sample_activity;
                          sample_proofs := ["https://example.com/key2"] |}) rsa_key;
    EvSignRequest
      {| req_url := example_inbox;
         req_method := "POST";
         req_headers := [("content-type", "application/activity+json");
                         ("X-Trace", "abc")];
         req_body := req_body layered_request |} rsa_key;
    EvFetch layered_request],
   inr ()).
Proof. vm_compute. reflexivity. Qed.

Lemma signing_after_validation_witness :
  ((∀ object k, EvSignObject sample_activity ed_key = EvSignObject object k →
      ∃ ks1 ks2, keys interleaved_send = ks1 ++ k :: ks2 ∧
        filter (fun e => is_validate e = true) [EvValidate (privateKey ed_key) "private"]
        = validations (ks1 ++ [k])) ∧
   (is_serialization (EvSignObject sample_activity ed_key)
    || is_late_signing (EvSignObject sample_activity ed_key) = true →
      filter (fun e => is_validate e = true) [EvValidate (privateKey ed_key) "private"]
      = validations (keys interleaved_send))) ∧
  ((∀ object k, EvToJsonLd proved_activity = EvSignObject object k →
      ∃ ks1 ks2, keys layered_send = ks1 ++ k :: ks2 ∧
        filter (fun e => is_validate e = true) before_serialization
        = validations (ks1 ++ [k])) ∧
   (is_serialization (EvToJsonLd proved_activity)
    || is_late_signing (EvToJsonLd proved_activity) = true →
      filter (fun e => is_validate e = true) before_serialization
      = validations (keys layered_send))).
Proof.
  split.
  - apply (signing_after_validation interleaved_send
             [EvValidate (privateKey ed_key) "private"]
             (EvSignObject sample_activity ed_key)
             [EvValidate (privateKey public_key) "private"]).
    reflexivity.
  - apply (signing_after_validation layered_send before_serialization
             (EvToJsonLd proved_activity)
             [EvSignJsonLd (sample_toJsonLd proved_activity) rsa_key;
              EvSignRequest
                {| req_url := example_inbox;
                   req_method := "POST";
                   req_headers := [("content-type", "application/activity+json");
                                   ("X-Trace", "abc")];
                   req_body := req_body layered_request |} rsa_key;
              EvFetch layered_request]).
    rewrite layered_send_run. reflexivity.
Defined.

Lemma sendActivity_layers_witness :
  (filter (fun ev => is_validate ev = false) (sendActivity layered_send).1,
   (sendActivity layered_send).2) =
  layered sample_activity "https://example.com/activity" (inbox layered_send)
          None None (headers layered_send) [ed_key] (Some rsa_key)
          (logged_keys (keys layered_send)).
Proof.
  apply (sendActivity_layers layered_send
           (url "https://example.com/activity" "https://example.com")).
  - reflexivity.
  - eexists. reflexivity.
  - discriminate.
  - repeat constructor.
Defined.

Lemma sendActivity_delivery_witness :
  ((sendActivity down_send).2 = inr () ↔ (200 ≤ status down_response ≤ 299)%N) ∧
  (¬ (200 ≤ status down_response ≤ 299)%N →
     ∃ aid pre,
       let error := match text down_response with inr body => body | inl _ => "" end in
       activity_id (activity down_send) = Some aid ∧
       (sendActivity down_send).1 =
         pre ++ [EvFetch down_request; EvText down_response;
                 EvLogError (href aid) (href (inbox down_send)) (status down_response)
                            (statusText down_response) error] ∧
       (sendActivity down_send).2 =
         inl (Error ("Failed to send activity " +:+ href aid +:+ " to " +:+
                     href (inbox down_send) +:+ " (" +:+ pretty (status down_response)
                     +:+ " " +:+ statusText down_response +:+ "):" +:+ nl +:+ error))) ∧
  filter (fun ev => is_fetch ev = true) (sendActivity down_send).1 = [EvFetch down_request].
Proof.
  apply (sendActivity_delivery down_send down_request down_response).
  - rewrite down_send_run. cbn [fst].
    do 6 apply list_elem_of_further. apply list_elem_of_here.
  - reflexivity.
Defined.

Lemma sendActivity_content_type_witness :
  Headers_get "Content-Type" (Headers_new (headers layered_send)) = Some "text/plain" ∧
  Headers_get "Content-Type" (req_headers layered_request)
    = Some "application/activity+json" ∧
  Headers_get "x-trace" (req_headers layered_request) = Some "abc".
Proof.
  assert (Hfetch : EvFetch layered_request ∈ (sendActivity layered_send).1).
  { rewrite layered_send_run. cbn [fst].
    do 7 apply list_elem_of_further. apply list_elem_of_here. }
  split; [reflexivity|]. split.
  - apply (sendActivity_content_type layered_send layered_request "Content-Type" Hfetch).
    intros _ _ _ request key kid signed [= <-]. cbn [req_headers].
    rewrite Headers_get_set. reflexivity.
  - apply (sendActivity_content_type layered_send layered_request "x-trace" Hfetch).
    intros _ _ _ request key kid signed [= <-]. cbn [req_headers].
    rewrite Headers_get_set. reflexivity.
Defined.

End send_examples.

Section property_facts.
Import Property.
Context `{ResolverEnv}.
Variable property : PropertySchema.
Variable types : gmap string TypeSchema.
Variable getDocumentLoader : DocumentLoader.

Abbreviation x_fromJsonLd := (x_fromJsonLd property types).
Abbreviation candidates := (candidates property types).
Abbreviation candidates_of := (candidates_of types).

Lemma append_assoc (a b c : string) : (a +:+ b) +:+ c = a +:+ b +:+ c.
Proof.
  induction a as [|ch a IH]; [done|].
  change (String ch ((a +:+ b) +:+ c) = String ch (a +:+ b +:+ c)).
  by rewrite IH.
Qed.

Lemma append_empty_r (a : string) : a +:+ "" = a.
Proof.
  induction a as [|ch a IH]; [done|].
  change (String ch (a +:+ "") = String ch a). by rewrite IH.
Qed.

Lemma join_mentions sep (l : list string) r :
  r ∈ l → mentions (join sep l) r.
Proof.
  induction l as [|x l IH]; [by intros ?%elem_of_nil|].
  intros [->|Hin]%elem_of_cons.
  - destruct l as [|y l].
    + exists "", "". simpl. by rewrite append_empty_r.
    + exists "", (sep +:+ join sep (y :: l)). done.
  - destruct l as [|y l]; [by apply elem_of_nil in Hin|].
    destruct (IH Hin) as (pre & post & Heq).
    exists (x +:+ sep +:+ pre), post.
    change (join sep (x :: y :: l)) with (x +:+ sep +:+ join sep (y :: l)).
    by rewrite Heq, !append_assoc.
Qed.

Lemma mentions_prefix prefix msg r : mentions msg r → mentions (prefix +:+ msg) r.
Proof.
  intros (pre & post & ->). exists (prefix +:+ pre), post. by rewrite append_assoc.
Qed.

Lemma candidates_of_range remaining c :
  c ∈ candidates_of remaining → c.1 ∈ remaining.
Proof.
  unfold candidates_of. rewrite list_elem_of_omap. intros (r & Hr & Hc).
  destruct (types !! r); simplify_eq/=. done.
Qed.

Lemma try_candidates_spec remaining jsonLd :
  (∃ tried c rest,
     candidates_of remaining = tried ++ c :: rest ∧
     Forall (mismatch jsonLd) tried ∧
     ¬ mismatch jsonLd c ∧
     try_candidates property types remaining jsonLd =
       (attempt jsonLd <$> (tried ++ [c]), fromJsonLd (name c.2) jsonLd)) ∨
  (Forall (mismatch jsonLd) (candidates_of remaining) ∧
   try_candidates property types remaining jsonLd =
     (attempt jsonLd <$> candidates_of remaining,
      inl (TypeError ("Expected an object of any type of: " +:+
                      join ", " (range property))))).
Proof.
  induction remaining as [|r remaining IH]; simpl.
  { right. by split. }
  unfold candidates_of. cbn [omap list_omap]. fold (candidates_of remaining).
  destruct (types !! r) as [rangeType|]; cbn [fmap option_fmap option_map]; [|exact IH].
  destruct (fromJsonLd (name rangeType) jsonLd) as [[msg|msg]|object] eqn:Hparse.
  - rewrite bind_log. destruct IH as [(tried & c & rest & Hc & Htried & Hlast & Hrun)|[Hall Hrun]].
    + left. exists ((r, rangeType) :: tried), c, rest. rewrite Hc, Hrun.
      split; [done|]. split; [|done].
      constructor; [by exists msg|done].
    + right. rewrite Hrun. split; [|done]. constructor; [by exists msg|done].
  - left. exists [], (r, rangeType), (candidates_of remaining). simpl.
    split; [done|]. split; [done|]. rewrite Hparse. split; [|done].
    intros [msg' Hm]. simpl in Hm. congruence.
  - left. exists [], (r, rangeType), (candidates_of remaining). simpl.
    split; [done|]. split; [done|]. rewrite Hparse. split; [|done].
    intros [msg' Hm]. simpl in Hm. congruence.
Qed.

(** C7: [#x_fromJsonLd] tries the candidates in declared order.  Either
    some candidates throw a [TypeError], the next one does not, and its
    outcome (an object, or another exception) is the outcome, no later
    candidate being tried; or every candidate throws a [TypeError], all of
    them are tried, and the outcome is a [TypeError] whose message lists
    [property.range], so mentions every candidate tried. *)
Theorem x_fromJsonLd_candidates (jsonLd : Json) :
  (∃ tried c rest,
     candidates = tried ++ c :: rest ∧
     Forall (mismatch jsonLd) tried ∧
     ¬ mismatch jsonLd c ∧
     x_fromJsonLd jsonLd =
       (attempt jsonLd <$> (tried ++ [c]), fromJsonLd (name c.2) jsonLd)) ∨
  (Forall (mismatch jsonLd) candidates ∧
   ∃ msg,
     x_fromJsonLd jsonLd = (attempt jsonLd <$> candidates, inl (TypeError msg)) ∧
     msg = "Expected an object of any type of: " +:+ join ", " (range property) ∧
     ∀ c, c ∈ candidates → mentions msg c.1).
Proof.
  unfold Property.x_fromJsonLd.
  destruct (try_candidates_spec (range property) jsonLd) as [Hfound|[Hall Hrun]].
  - by left.
  - right. split; [done|]. eexists. split; [exact Hrun|]. split; [done|].
    intros c Hc. apply mentions_prefix, join_mentions.
    by apply candidates_of_range.
Qed.

(** C9: the identity accessors are functions of the field alone, with no
    loader, no world and no change of [this]: [xId] is [null] on an empty
    field, the URL of a first [Reference] slot, the identity of a first
    [Inline] slot; [xIds] collects, in slot order, the URL of each
    [Reference] and the identity, when it has one, of each [Inline]
    object. *)
Theorem identity_accessors (this : instance) :
  (field this = [] → xId this = None) ∧
  (∀ u rest, field this = Reference u :: rest → xId this = Some u) ∧
  (∀ o rest, field this = Inline o :: rest → xId this = object_id o) ∧
  xIds this =
    field this ≫= (fun v => match v with
                            | Reference u => [u]
                            | Inline o => option_list (object_id o)
                            end).
Proof.
  unfold xId, xIds. repeat split.
  - by intros ->.
  - by intros u rest ->.
  - by intros o rest ->.
  - induction (field this) as [|[u|o] rest IH]; [done|..].
    + simpl. f_equal. exact IH.
    + simpl. destruct (object_id o); simpl; [f_equal|]; exact IH.
Qed.

Abbreviation fetchX := (fetchX property types getDocumentLoader).
Abbreviation cached_fragment := (cached_fragment property).
Abbreviation getX := (getX property types getDocumentLoader).
Abbreviation getXs := (getXs property types getDocumentLoader).
Abbreviation getXs_loop := (getXs_loop property types getDocumentLoader).
Abbreviation sweep := (sweep property types getDocumentLoader).
Abbreviation getXs_ref := (getXs_ref property types getDocumentLoader).

Lemma try_candidates_no_load remaining jsonLd :
  Forall (fun ev => is_load ev = false)
         (try_candidates property types remaining jsonLd).1.
Proof.
  induction remaining as [|r remaining IH]; simpl; [done|].
  destruct (types !! r) as [rangeType|]; [|done].
  destruct (fromJsonLd (name rangeType) jsonLd) as [[msg|msg]|object];
    [|by repeat constructor..].
  rewrite bind_log. by constructor.
Qed.

Lemma x_fromJsonLd_no_load jsonLd :
  Forall (fun ev => is_load ev = false) (x_fromJsonLd jsonLd).1.
Proof. apply try_candidates_no_load. Qed.

(** [#fetchX] calls the loader once, with the [href], before anything else. *)
Lemma fetchX_events this u options w :
  ∃ rest, (fetchX this u options w).1.1 = EvLoad (href u) :: rest ∧
          Forall (fun ev => is_load ev = false) rest.
Proof.
  unfold Property.fetchX.
  destruct (chosen_loader _ _ _ _ _) as [[error|fetchResult] w'].
  - destruct (default false (suppressError options)); eexists; (split; [reflexivity|]);
      by repeat constructor.
  - rewrite bind_call_inr. cbn [fst snd].
    pose proof (x_fromJsonLd_no_load (document fetchResult)) as Hparse.
    destruct (x_fromJsonLd (document fetchResult)) as [evs [e|obj]]; cbn [fst snd] in *.
    + destruct (default false (suppressError options)); eexists; (split; [reflexivity|]);
        [|done]. apply Forall_app. split; [done|by repeat constructor].
    + eexists. by split.
Qed.

Lemma fetchX_set_field this f u options w :
  fetchX (set_field this f) u options w = fetchX this u options w.
Proof. done. Qed.

Lemma cached_fragment_set_field this f i :
  cached_fragment (set_field this f) i = cached_fragment this i.
Proof. done. Qed.

Lemma set_field_same this : set_field this (field this) = this.
Proof. by destruct this. Qed.

Lemma set_field_twice this f g : set_field (set_field this f) g = set_field this g.
Proof. done. Qed.

Lemma sweep_set_field this f options i slots w :
  sweep (set_field this f) options i slots w = sweep this options i slots w.
Proof.
  revert i w. induction slots as [|[u|o] rest IH]; intros i w; cbn [Property.sweep].
  - done.
  - rewrite fetchX_set_field. destruct (fetchX this u options w) as [fetched w'].
    destruct fetched.2 as [e|[object|]]; [done|..]; by rewrite IH.
  - rewrite cached_fragment_set_field. destruct (cached_fragment this i) as [obj|].
    + destruct (x_fromJsonLd obj).2; [done|]. by rewrite IH.
    + by rewrite IH.
Qed.

(** The generator's loop from position [i] is the slot-by-slot reference on
    the slots from [i] on; the slots before [i] are left as they are. *)
Lemma getXs_loop_sweep options n i this w :
  length (field this) ≤ i + n →
  getXs_loop options n i this w =
  let '(evs, out, slots, w') := sweep this options i (drop i (field this)) w in
  {| events := evs; outcome := out;
     this_after := set_field this (take i (field this) ++ slots);
     world_after := w' |}.
Proof.
  revert i this w. induction n as [|n IH]; intros i this w Hlen.
  { rewrite drop_ge by lia. simpl. rewrite app_nil_r, take_ge by lia.
    by rewrite set_field_same. }
  cbn [Property.getXs_loop].
  destruct (field this !! i) as [v|] eqn:Hv.
  2:{ apply lookup_ge_None in Hv. rewrite drop_ge by lia. simpl.
      rewrite app_nil_r, take_ge by lia. by rewrite set_field_same. }
  rewrite (drop_S _ _ _ Hv). cbn [Property.sweep].
  assert (Hi : i < length (field this)) by (by eapply lookup_lt_Some).
  destruct v as [u|o].
  - destruct (fetchX this u options w) as [fetched w'] eqn:Hfetch.
    destruct fetched.2 as [e|[object|]] eqn:Hres.
    + unfold stopped. f_equal. by rewrite <- (drop_S _ _ _ Hv), take_drop, set_field_same.
    + rewrite IH by (cbn [field set_field]; rewrite length_insert; lia).
      cbn [field set_field].
      rewrite drop_insert_lt by lia.
      rewrite sweep_set_field.
      destruct (sweep this options (S i) (drop (S i) (field this)) w')
        as [[[evs [ys e]] rest'] w''].
      unfold before, yielded, thrown. cbn [events outcome this_after world_after fst snd].
      f_equal. rewrite set_field_twice. f_equal.
      rewrite (take_S_r _ _ (Inline object)) by (by apply list_lookup_insert_eq).
      rewrite take_insert_ge by lia. by rewrite <- app_assoc.
    + rewrite IH by lia.
      destruct (sweep this options (S i) (drop (S i) (field this)) w')
        as [[[evs [ys e]] rest'] w''].
      unfold before, yielded, thrown. cbn [events outcome this_after world_after fst snd].
      f_equal. f_equal.
      rewrite (take_S_r _ _ _ Hv). by rewrite <- app_assoc.
  - destruct (cached_fragment this i) as [obj|].
    + destruct (x_fromJsonLd obj).2 as [e|object].
      * unfold stopped. f_equal.
        by rewrite <- (drop_S _ _ _ Hv), take_drop, set_field_same.
      * rewrite IH by lia.
        destruct (sweep this options (S i) (drop (S i) (field this)) w)
          as [[[evs [ys e]] rest'] w''].
        unfold before, yielded, thrown. cbn [events outcome this_after world_after fst snd].
        f_equal. f_equal.
        rewrite (take_S_r _ _ _ Hv). by rewrite <- app_assoc.
    + rewrite IH by lia.
      destruct (sweep this options (S i) (drop (S i) (field this)) w)
        as [[[evs [ys e]] rest'] w''].
      unfold before, yielded, thrown. cbn [events outcome this_after world_after fst snd].
      f_equal. f_equal.
      rewrite (take_S_r _ _ _ Hv). by rewrite <- app_assoc.
Qed.

Lemma getXs_refines this options w : getXs this options w = getXs_ref this options w.
Proof.
  unfold Property.getXs, Property.getXs_ref.
  rewrite getXs_loop_sweep by lia. by rewrite drop_0, take_0.
Qed.

Lemma fate_mono ys ys' old new :
  (∀ o, o ∈ ys → o ∈ ys') → fate ys old new → fate ys' old new.
Proof. intros Hsub [->|(u & o & -> & -> & Ho)]; [by left|]. right. eauto 6. Qed.

Lemma sweep_fate this options i slots w :
  Forall2 (fate (sweep this options i slots w).1.1.2.1) slots
          (sweep this options i slots w).1.2.
Proof.
  revert i w. induction slots as [|[u|o] rest IH]; intros i w; cbn [Property.sweep].
  - constructor.
  - destruct (fetchX this u options w) as [fetched w'].
    destruct fetched.2 as [e|[object|]].
    + cbn [fst snd]. apply Forall2_same_length_lookup_2; [done|].
      intros j x y Hx Hy. left. congruence.
    + specialize (IH (S i) w').
      destruct (sweep this options (S i) rest w') as [[[evs [ys e]] rest'] w''].
      cbn [fst snd] in *. constructor.
      * right. exists u, object. repeat split. by left.
      * eapply Forall2_impl; [exact IH|]. intros old new. apply fate_mono.
        intros o Ho. by right.
    + specialize (IH (S i) w').
      destruct (sweep this options (S i) rest w') as [[[evs [ys e]] rest'] w''].
      cbn [fst snd] in *. constructor; [by left|done].
  - destruct (cached_fragment this i) as [obj|].
    + destruct (x_fromJsonLd obj).2 as [e|object].
      * cbn [fst snd]. apply Forall2_same_length_lookup_2; [done|].
        intros j x y Hx Hy. left. congruence.
      * specialize (IH (S i) w).
        destruct (sweep this options (S i) rest w) as [[[evs [ys e]] rest'] w''].
        cbn [fst snd] in *. constructor; [by left|].
        eapply Forall2_impl; [exact IH|]. intros old new. apply fate_mono.
        intros o' Ho. by right.
    + specialize (IH (S i) w).
      destruct (sweep this options (S i) rest w) as [[[evs [ys e]] rest'] w''].
      cbn [fst snd] in *. constructor; [by left|].
      eapply Forall2_impl; [exact IH|]. intros old new. apply fate_mono.
      intros o' Ho. by right.
Qed.

Lemma sweep_loads this options i slots w url :
  EvLoad url ∈ (sweep this options i slots w).1.1.1 →
  ∃ u, Reference u ∈ slots ∧ href u = url.
Proof.
  revert i w. induction slots as [|[u|o] rest IH]; intros i w; cbn [Property.sweep].
  - by intros ?%elem_of_nil.
  - destruct (fetchX_events this u options w) as (more & Hfetch & Hmore).
    destruct (fetchX this u options w) as [fetched w']. cbn [fst] in Hfetch.
    assert (Hhere : EvLoad url ∈ fetched.1 → ∃ u0, Reference u0 ∈ Reference u :: rest
                                                  ∧ href u0 = url).
    { rewrite Hfetch. intros [[= ->]|Hin]%elem_of_cons.
      - exists u. split; [by left|done].
      - by eapply Forall_forall in Hmore; [|exact Hin]. }
    assert (Hthere : ∀ w0, EvLoad url ∈ (sweep this options (S i) rest w0).1.1.1 →
                           ∃ u0, Reference u0 ∈ Reference u :: rest ∧ href u0 = url).
    { intros w0 Hin. destruct (IH _ _ Hin) as (u0 & Hu0 & Heq).
      exists u0. split; [by right|done]. }
    destruct fetched.2 as [e|[object|]]; [exact Hhere|..];
      specialize (Hthere w');
      destruct (sweep this options (S i) rest w') as [[[evs [ys e]] rest'] w''];
      cbn [fst snd] in *; intros [?|?]%elem_of_app; eauto.
  - assert (Hthere : ∀ w0, EvLoad url ∈ (sweep this options (S i) rest w0).1.1.1 →
                           ∃ u0, Reference u0 ∈ Inline o :: rest ∧ href u0 = url).
    { intros w0 Hin. destruct (IH _ _ Hin) as (u0 & Hu0 & Heq).
      exists u0. split; [by right|done]. }
    assert (Hparse : ∀ obj, EvLoad url ∈ (x_fromJsonLd obj).1 → False).
    { intros obj Hin. pose proof (x_fromJsonLd_no_load obj) as Hno.
      by eapply Forall_forall in Hno; [|exact Hin]. }
    destruct (cached_fragment this i) as [obj|].
    + specialize (Hparse obj). destruct (x_fromJsonLd obj) as [pevs [e|object]];
        cbn [fst snd] in *; [by intros ?%Hparse|].
      specialize (Hthere w).
      destruct (sweep this options (S i) rest w) as [[[evs [ys e]] rest'] w''].
      cbn [fst snd] in *. intros [?%Hparse|?]%elem_of_app; [done|eauto].
    + specialize (Hthere w).
      destruct (sweep this options (S i) rest w) as [[[evs [ys e]] rest'] w''].
      cbn [fst snd] in *. eauto.
Qed.

(** With [suppressError] set, [#fetchX] returns and does not throw. *)
Lemma fetchX_suppressed this u options w e :
  suppressError options = Some true → (fetchX this u options w).1.2 ≠ inl e.
Proof.
  intros Hs. unfold Property.fetchX. rewrite Hs. cbn [default].
  destruct (chosen_loader _ _ _ _ _) as [[error|fetchResult] w']; [done|].
  rewrite bind_call_inr. cbn [fst snd].
  by destruct (x_fromJsonLd (document fetchResult)).2.
Qed.

(** [#fetchX] returns [null] exactly for a suppressed failure, of the loader
    or of the parsers. *)
Lemma fetchX_null this u options w :
  (fetchX this u options w).1.2 = inr None ↔
  default false (suppressError options) = true ∧
  ((∃ e w', chosen_loader getDocumentLoader this options w (href u) = (inl e, w')) ∨
   (∃ r w' e, chosen_loader getDocumentLoader this options w (href u) = (inr r, w') ∧
              (x_fromJsonLd (document r)).2 = inl e)).
Proof.
  unfold Property.fetchX.
  destruct (chosen_loader _ _ _ _ _) as [[error|fetchResult] w'].
  - destruct (default false (suppressError options)); cbn.
    + split; [|done]. intros _. split; [done|]. left. eauto.
    + split; [done|]. by intros [? _].
  - rewrite bind_call_inr. cbn [fst snd].
    destruct (x_fromJsonLd (document fetchResult)).2 as [e|obj] eqn:Hparse.
    + destruct (default false (suppressError options)); cbn.
      * split; [|done]. intros _. split; [done|]. right.
        exists fetchResult, w', e. by split.
      * split; [done|]. by intros [? _].
    + cbn. split; [done|]. intros [_ [(e & w0 & [=])|(r & w0 & e & [= <- _] & Herr)]].
      congruence.
Qed.

Lemma cached_fragment_no_cache this i :
  _cachedJsonLd this = None → cached_fragment this i = None.
Proof.
  intros Hc. unfold Property.cached_fragment. rewrite Hc.
  by destruct (compactName property).
Qed.

Lemma sweep_suppressed this options i slots w :
  suppressError options = Some true →
  _cachedJsonLd this = None →
  (sweep this options i slots w).1.1.2 =
  (omap inline_object (sweep this options i slots w).1.2, None).
Proof.
  intros Hs Hc. revert i w.
  induction slots as [|[u|o] rest IH]; intros i w; cbn [Property.sweep]; [done|..].
  - pose proof (fetchX_suppressed this u options w) as Hok.
    destruct (fetchX this u options w) as [fetched w']. cbn [fst] in Hok.
    destruct fetched.2 as [e|[object|]]; [by destruct (Hok e Hs)|..];
      specialize (IH (S i) w');
      destruct (sweep this options (S i) rest w') as [[[evs [ys e]] rest'] w''];
      cbn [fst snd] in *; by simplify_eq.
  - rewrite cached_fragment_no_cache by done.
    specialize (IH (S i) w).
    destruct (sweep this options (S i) rest w) as [[[evs [ys e]] rest'] w''].
    cbn [fst snd] in *. by simplify_eq.
Qed.

Lemma getXs_ref_fields this options w :
  events (getXs_ref this options w) = (sweep this options 0 (field this) w).1.1.1 ∧
  outcome (getXs_ref this options w) = (sweep this options 0 (field this) w).1.1.2 ∧
  field (this_after (getXs_ref this options w)) = (sweep this options 0 (field this) w).1.2.
Proof.
  unfold Property.getXs_ref.
  by destruct (sweep this options 0 (field this) w) as [[[evs out] slots] w'].
Qed.

(** C5: when [getX] resolves a [Reference], the slot holds the resolved
    object afterwards, that object is returned, and any later [getX] on the
    result calls no loader; when [#fetchX] gives anything else ([null] for a
    suppressed failure, or an exception), [getX] gives the same and leaves
    [this] as it was.  [getXs] is the slot-by-slot
    reference [getXs_ref]: every slot is afterwards what it was, or a
    [Reference] replaced by an object that was yielded; the loader is only
    called for slots that hold a [Reference]; and with [suppressError] and
    no cached document the run does not throw and yields exactly the
    [Inline] objects of the field afterwards, in slot order. *)
Theorem resolution_memoizes (this : instance) (options : Options) (w : World) :
  (∀ u rest evs o w',
     field this = Reference u :: rest →
     fetchX this u options w = ((evs, inr (Some o)), w') →
     getX this options w =
       {| events := evs; outcome := inr (Some o);
          this_after := set_field this (Inline o :: rest); world_after := w' |} ∧
     ∀ options' w'',
       Forall (fun ev => is_load ev = false)
              (events (getX (set_field this (Inline o :: rest)) options' w''))) ∧
  (∀ u rest evs out w',
     field this = Reference u :: rest →
     fetchX this u options w = ((evs, out), w') →
     (∀ o, out ≠ inr (Some o)) →
     getX this options w =
       {| events := evs; outcome := out; this_after := this; world_after := w' |}) ∧
  getXs this options w = getXs_ref this options w ∧
  Forall2 (fate (yielded (getXs this options w)))
          (field this) (field (this_after (getXs this options w))) ∧
  (∀ url, EvLoad url ∈ events (getXs this options w) →
          ∃ u, Reference u ∈ field this ∧ href u = url) ∧
  (suppressError options = Some true → _cachedJsonLd this = None →
   thrown (getXs this options w) = None ∧
   yielded (getXs this options w) =
     omap inline_object (field (this_after (getXs this options w)))).
Proof.
  split; [|split; [|split; [|split; [|split]]]].
  - intros u rest evs o w' Hfield Hfetch. split.
    + unfold Property.getX. by rewrite Hfield, Hfetch.
    + intros options' w''. unfold Property.getX. cbn [field set_field].
      destruct (cached_fragment _ 0) as [obj|]; cbn [events]; [|done].
      apply x_fromJsonLd_no_load.
  - intros u rest evs out w' Hfield Hfetch Hout.
    unfold Property.getX. rewrite Hfield, Hfetch. cbn [fst snd].
    destruct out as [e|[o|]]; [done|by destruct (Hout o)|done].
  - apply getXs_refines.
  - rewrite getXs_refines. unfold yielded.
    destruct (getXs_ref_fields this options w) as (_ & -> & ->). apply sweep_fate.
  - intros url. rewrite getXs_refines.
    destruct (getXs_ref_fields this options w) as (-> & _ & _). apply sweep_loads.
  - intros Hs Hc. rewrite getXs_refines. unfold thrown, yielded.
    destruct (getXs_ref_fields this options w) as (_ & -> & ->).
    by rewrite sweep_suppressed.
Qed.

(** The cached fragment at position [i], in the words of the test: a value
    under the compact name that is not an array serves every position. *)
Lemma cached_fragment_iff this i obj :
  cached_fragment this i = Some obj ↔
  ∃ compact props prop oprops,
    compactName property = Some compact ∧
    _cachedJsonLd this = Some (JObj props) ∧
    is_Some (props_get "@context" props) ∧
    props_get compact props = Some prop ∧
    match prop with JArr items => items !! i = Some obj | _ => prop = obj end ∧
    obj = JObj oprops ∧
    is_Some (props_get "@context" oprops).
Proof.
  unfold Property.cached_fragment. split.
  - destruct (compactName property) as [compact|]; [|done].
    destruct (_cachedJsonLd this) as [[| | | | |props]|]; try done. cbn.
    destruct (bool_decide (is_Some (props_get "@context" props))) eqn:Hctx; [|done].
    destruct (bool_decide (is_Some (props_get compact props))) eqn:Hprop; [|done].
    apply bool_decide_eq_true in Hctx. cbn.
    destruct (props_get compact props) as [prop|] eqn:Hp; [|done]. cbn.
    intros Hobj.
    assert (∃ found, match prop with JArr items => items !! i | _ => Some prop end
                     = Some found ∧
              (if is_object found && has_key "@context" found
               then Some found else None) = Some obj) as (found & Hfound & Hif).
    { destruct (match prop with JArr items => items !! i | _ => Some prop end);
        [eauto|done]. }
    destruct found as [| | | | |oprops]; try done. cbn in Hif.
    destruct (bool_decide (is_Some (props_get "@context" oprops))) eqn:Hoctx; [|done].
    apply bool_decide_eq_true in Hoctx. simplify_eq.
    exists compact, props, prop, oprops. repeat split; try done.
    destruct prop; by simplify_eq.
  - intros (compact & props & prop & oprops & -> & -> & Hctx & Hprop & Hpos & -> & Hoctx).
    cbn. rewrite !bool_decide_eq_true_2 by (by rewrite ?Hprop). cbn.
    rewrite Hprop. cbn.
    assert (match prop with JArr items => items !! i | _ => Some prop end
            = Some (JObj oprops)) as ->.
    { destruct prop; by simplify_eq. }
    cbn. by rewrite bool_decide_eq_true_2.
Qed.

(** C6 (amended): [getX] on a [Reference] slot always starts by calling
    the loader with the reference's [href], cached fragment or not; on an
    [Inline] slot with a cached fragment it parses the fragment, calls no
    loader and leaves [this] as it was; on an [Inline] slot without one it
    returns the held object. *)
Theorem getX_shortcut (this : instance) (options : Options) (w : World) :
  (∀ u rest, field this = Reference u :: rest →
     ∃ evs, events (getX this options w) = EvLoad (href u) :: evs) ∧
  (∀ o rest obj,
     field this = Inline o :: rest →
     cached_fragment this 0 = Some obj →
     getX this options w =
       {| events := (x_fromJsonLd obj).1;
          outcome := match (x_fromJsonLd obj).2 with
                     | inl e => inl e
                     | inr object => inr (Some object)
                     end;
          this_after := this; world_after := w |} ∧
     Forall (fun ev => is_load ev = false) (events (getX this options w))) ∧
  (∀ o rest,
     field this = Inline o :: rest →
     cached_fragment this 0 = None →
     getX this options w =
       {| events := []; outcome := inr (Some o); this_after := this; world_after := w |}).
Proof.
  split; [|split].
  - intros u rest Hfield. unfold Property.getX. rewrite Hfield.
    destruct (fetchX_events this u options w) as (more & Hfetch & _).
    destruct (fetchX this u options w) as [fetched w']. cbn [fst] in Hfetch.
    destruct fetched.2 as [e|[object|]]; by exists more.
  - intros o rest obj Hfield Hfrag. unfold Property.getX. rewrite Hfield, Hfrag.
    split; [done|]. apply x_fromJsonLd_no_load.
  - intros o rest Hfield Hfrag. unfold Property.getX. by rewrite Hfield, Hfrag.
Qed.

End property_facts.

Section property_examples.
Import Property.
#[local] Existing Instance sample_resolver.

Example three_references_run :
  getXs actor_property sample_types sample_loader three_references suppressing [] =
  {| events :=
       [EvLoad "https://example.com/a";
        EvParse "Application" (person_document "https://example.com/a");
        EvParse "Person" (person_document "https://example.com/a");
        EvLoad "https://example.com/gone";
        EvLogFetchFailure "https://example.com/gone" (Error "404 Not Found");
        EvLoad "https://example.com/c";
        EvParse "Application" (person_document "https://example.com/c");
        EvParse "Person" (person_document "https://example.com/c")];
     outcome := ([person "https://example.com/a"; person "https://example.com/c"], None);
     this_after :=
       {| field := [Inline (person "https://example.com/a");
                    Reference (example_url "https://example.com/gone");
                    Inline (person "https://example.com/c")];
          _cachedJsonLd := None; _documentLoader := None |};
     world_after := ["https://example.com/a"; "https://example.com/gone";
                     "https://example.com/c"] |}.
Proof. vm_compute. reflexivity. Qed.

Example candidates_run :
  x_fromJsonLd actor_property sample_types (person_document "https://example.com/a") =
  ([EvParse "Application" (person_document "https://example.com/a");
    EvParse "Person" (person_document "https://example.com/a")],
   inr (person "https://example.com/a")).
Proof. vm_compute. reflexivity. Qed.

Example candidates_exhausted :
  x_fromJsonLd actor_property sample_types (JObj [("type", JStr "Note")]) =
  ([EvParse "Application" (JObj [("type", JStr "Note")]);
    EvParse "Person" (JObj [("type", JStr "Note")])],
   inl (TypeError ("Expected an object of any type of: " +:+
                   "https://www.w3.org/ns/activitystreams#Application, " +:+
                   "http://www.w3.org/2001/XMLSchema#anyURI, " +:+
                   "https://www.w3.org/ns/activitystreams#Person"))).
Proof. vm_compute. reflexivity. Qed.

Example candidates_aborted :
  x_fromJsonLd actor_property sample_types (JObj []) =
  ([EvParse "Application" (JObj [])], inl (Error "The document has no type.")).
Proof. vm_compute. reflexivity. Qed.

Lemma resolution_memoizes_witness :
  getX actor_property sample_types sample_loader one_reference suppressing [] =
    {| events := [EvLoad "https://example.com/a";
                  EvParse "Application" (person_document "https://example.com/a");
                  EvParse "Person" (person_document "https://example.com/a")];
       outcome := inr (Some (person "https://example.com/a"));
       this_after := set_field one_reference [Inline (person "https://example.com/a")];
       world_after := ["https://example.com/a"] |} ∧
  ∀ options' w'',
    Forall (fun ev => is_load ev = false)
      (events (getX actor_property sample_types sample_loader
                 (set_field one_reference [Inline (person "https://example.com/a")])
                 options' w'')).
Proof.
  apply (proj1 (resolution_memoizes actor_property sample_types sample_loader
                  one_reference suppressing []))
    with (u := example_url "https://example.com/a").
  - reflexivity.
  - vm_compute. reflexivity.
Defined.

(** C6, as stated, fails: a [Reference] slot whose parent kept a source
    document with the inline sub-document is still resolved through the
    loader. *)
Lemma fragment_does_not_skip_loader :
  ¬ ∀ (E : ResolverEnv) property types getDocumentLoader this options w,
      @fragment_skips_loader E property types getDocumentLoader this options w.
Proof.
  intros Hclaim.
  destruct (Hclaim sample_resolver actor_property sample_types sample_loader
              cached_reference propagating []
              (example_url "https://example.com/a") []
              (person_document "https://example.com/a") eq_refl eq_refl)
    as [Hloads _].
  assert (Hrun : events (getX actor_property sample_types sample_loader
                           cached_reference propagating []) =
                 [EvLoad "https://example.com/a";
                  EvParse "Application" (person_document "https://example.com/a");
                  EvParse "Person" (person_document "https://example.com/a")])
    by (vm_compute; reflexivity).
  rewrite Hrun in Hloads. apply Forall_cons in Hloads as [Hload _].
  discriminate Hload.
Qed.

Lemma getX_shortcut_witness :
  (∃ evs, events (getX actor_property sample_types sample_loader
                    cached_reference propagating []) =
          EvLoad "https://example.com/a" :: evs) ∧
  (getX actor_property sample_types sample_loader cached_inline propagating [] =
     {| events := (x_fromJsonLd actor_property sample_types
                     (person_document "https://example.com/a")).1;
        outcome := match (x_fromJsonLd actor_property sample_types
                            (person_document "https://example.com/a")).2 with
                   | inl e => inl e
                   | inr object => inr (Some object)
                   end;
        this_after := cached_inline; world_after := [] |} ∧
   Forall (fun ev => is_load ev = false)
          (events (getX actor_property sample_types sample_loader
                     cached_inline propagating []))).
Proof.
  split.
  - apply (proj1 (getX_shortcut actor_property sample_types sample_loader
                    cached_reference propagating []))
      with (u := example_url "https://example.com/a") (rest := []).
    reflexivity.
  - apply (proj1 (proj2 (getX_shortcut actor_property sample_types sample_loader
                           cached_inline propagating [])))
      with (o := person "https://example.com/a") (rest := []).
    + reflexivity.
    + vm_compute. reflexivity.
Defined.

Lemma identity_accessors_witness :
  xId mixed_slots = Some (example_url "https://example.com/a") ∧
  xId {| field := [Inline anonymous]; _cachedJsonLd := None; _documentLoader := None |}
    = None ∧
  xIds mixed_slots = [example_url "https://example.com/a";
                      example_url "https://example.com/b"].
Proof.
  split; [|split].
  - apply (proj1 (proj2 (identity_accessors mixed_slots)))
      with (u := example_url "https://example.com/a")
           (rest := [Inline anonymous; Inline (person "https://example.com/b")]).
    reflexivity.
  - apply (proj1 (proj2 (proj2 (identity_accessors
             {| field := [Inline anonymous]; _cachedJsonLd := None;
                _documentLoader := None |}))))
      with (o := anonymous) (rest := []).
    reflexivity.
  - apply (proj2 (proj2 (proj2 (identity_accessors mixed_slots)))).
Defined.

End property_examples.

(** * Further properties *)

Section extractInboxes_more.

(** The pairs that the loop adds, in order. *)
Lemma extractInboxes_elem p key ids :
  extractInboxes p !! key = Some ids →
  ∀ i, i ∈ ids ↔ (key, i) ∈ omap (kept p) (recipients p).
Proof.
  unfold extractInboxes. rewrite extractInboxes_foldl, add_targets_lookup, lookup_empty.
  case_decide; [|done]. intros [= <-] i. unfold ids_for.
  rewrite elem_of_list_to_set, list_elem_of_fmap. split.
  - intros ([k i'] & -> & [Hk Hin]%list_elem_of_filter). simpl in *. by subst.
  - intros Hin. exists (key, i). split; [done|]. by apply list_elem_of_filter.
Qed.

Lemma extractInboxes_is_Some p key :
  is_Some (extractInboxes p !! key) ↔ key ∈ (omap (kept p) (recipients p)).*1.
Proof.
  unfold extractInboxes. rewrite extractInboxes_foldl, add_targets_lookup, lookup_empty.
  case_decide; split; try done; by intros [? ?].
Qed.

Lemma kept_Some p r key i :
  kept p r = Some (key, i) ↔
  ∃ inbox rid,
    chosen_inbox (preferSharedInbox p) r = Some inbox ∧
    recipient_id r = Some rid ∧
    is_excluded (excludeBaseUris p) inbox = false ∧
    href inbox = key ∧ href rid = i.
Proof.
  unfold kept. split.
  - destruct (chosen_inbox _ r) as [inbox|]; simpl; [|done].
    destruct (recipient_id r) as [rid|]; simpl; [|done].
    destruct (is_excluded _ inbox) eqn:Hex; [done|]. intros [= <- <-]. eauto 8.
  - intros (inbox & rid & -> & -> & Hex & <- & <-). simpl. by rewrite Hex.
Qed.

(** X1: an inbox URL is a key of the inbox target map exactly when some
    recipient that has an identity has it as the [href] of its chosen inbox,
    the origin of which is not excluded; the entry under a key is never an
    empty set, and its identities are exactly those of these recipients. *)
Theorem extractInboxes_entries (p : ExtractInboxesParameters) key :
  (is_Some (extractInboxes p !! key) ↔
     ∃ r inbox rid,
       r ∈ recipients p ∧
       chosen_inbox (preferSharedInbox p) r = Some inbox ∧
       recipient_id r = Some rid ∧
       is_excluded (excludeBaseUris p) inbox = false ∧
       href inbox = key) ∧
  ∀ ids, extractInboxes p !! key = Some ids →
    ids ≠ ∅ ∧
    ∀ i, i ∈ ids ↔
         ∃ r inbox rid,
           r ∈ recipients p ∧
           chosen_inbox (preferSharedInbox p) r = Some inbox ∧
           recipient_id r = Some rid ∧
           is_excluded (excludeBaseUris p) inbox = false ∧
           href inbox = key ∧ href rid = i.
Proof.
  split.
  { rewrite extractInboxes_is_Some, list_elem_of_fmap. split.
    - intros ([k i] & -> & (r & Hr & (inbox & rid & ?)%kept_Some)%list_elem_of_omap).
      exists r, inbox, rid. tauto.
    - intros (r & inbox & rid & Hr & Hc & Hid & Hex & Hkey).
      exists (key, href rid). split; [done|]. apply list_elem_of_omap.
      exists r. split; [done|]. apply kept_Some. exists inbox, rid. tauto. }
  intros ids Hlookup.
  assert (Helem : ∀ i, i ∈ ids ↔
            ∃ r inbox rid,
              r ∈ recipients p ∧
              chosen_inbox (preferSharedInbox p) r = Some inbox ∧
              recipient_id r = Some rid ∧
              is_excluded (excludeBaseUris p) inbox = false ∧
              href inbox = key ∧ href rid = i).
  { intros i. rewrite (extractInboxes_elem p key ids Hlookup), list_elem_of_omap.
    split.
    - intros (r & Hr & (inbox & rid & ?)%kept_Some). exists r, inbox, rid. tauto.
    - intros (r & inbox & rid & Hr & ?). exists r. split; [done|].
      apply kept_Some. exists inbox, rid. tauto. }
  split; [|exact Helem].
  assert (Hkey : key ∈ (omap (kept p) (recipients p)).*1).
  { apply extractInboxes_is_Some. by exists ids. }
  apply list_elem_of_fmap in Hkey as ([k i] & -> & Hin). simpl in *.
  intros Hempty. apply (extractInboxes_elem p k ids Hlookup) in Hin.
  rewrite Hempty in Hin. by apply not_elem_of_empty in Hin.
Qed.

Lemma extractInboxes_same_pairs p q :
  (∀ kv, kv ∈ omap (kept p) (recipients p) ↔ kv ∈ omap (kept q) (recipients q)) →
  extractInboxes p = extractInboxes q.
Proof.
  intros Hsame. apply map_eq; intros key.
  destruct (extractInboxes p !! key) as [s1|] eqn:H1;
    destruct (extractInboxes q !! key) as [s2|] eqn:H2; [| | |done].
  - f_equal. apply set_eq; intros i.
    by rewrite (extractInboxes_elem p key s1 H1), (extractInboxes_elem q key s2 H2).
  - assert (Hin : is_Some (extractInboxes p !! key)) by (by exists s1).
    apply extractInboxes_is_Some, list_elem_of_fmap in Hin as ([k i] & -> & Hin).
    apply Hsame in Hin.
    assert (is_Some (extractInboxes q !! k)) as [? ?]; [|simpl in *; congruence].
    apply extractInboxes_is_Some, list_elem_of_fmap. by exists (k, i).
  - assert (Hin : is_Some (extractInboxes q !! key)) by (by exists s2).
    apply extractInboxes_is_Some, list_elem_of_fmap in Hin as ([k i] & -> & Hin).
    apply Hsame in Hin.
    assert (is_Some (extractInboxes p !! k)) as [? ?]; [|simpl in *; congruence].
    apply extractInboxes_is_Some, list_elem_of_fmap. by exists (k, i).
Qed.

(** X2: the inbox target map depends on the recipients as a set only:
    neither their order nor their repetition in the list changes it. *)
Theorem extractInboxes_same_recipients (l1 l2 : list Recipient) prefer exclude :
  (∀ r, r ∈ l1 ↔ r ∈ l2) →
  extractInboxes {| recipients := l1; preferSharedInbox := prefer;
                    excludeBaseUris := exclude |} =
  extractInboxes {| recipients := l2; preferSharedInbox := prefer;
                    excludeBaseUris := exclude |}.
Proof.
  intros Hsame. apply extractInboxes_same_pairs. intros kv.
  rewrite !list_elem_of_omap. cbn [recipients].
  split; intros (r & Hr & Hkept); exists r; (split; [by apply Hsame|exact Hkept]).
Qed.

End extractInboxes_more.

Section extractInboxes_exclusion.

Lemma is_excluded_mono ex1 ex2 inbox :
  (∀ u, u ∈ ex1 → u ∈ ex2) →
  is_excluded (Some ex1) inbox = true → is_excluded (Some ex2) inbox = true.
Proof.
  intros Hsub. unfold is_excluded. rewrite !existsb_exists.
  intros (u & Hu & Heq). exists u. split; [|done].
  apply list_elem_of_In, Hsub, list_elem_of_In, Hu.
Qed.

(** X3: with more exclusion URLs, no inbox is added and no identity is
    added under an inbox that remains. *)
Theorem extractInboxes_more_exclusions (l : list Recipient) prefer ex1 ex2 key ids2 :
  (∀ u, u ∈ ex1 → u ∈ ex2) →
  extractInboxes {| recipients := l; preferSharedInbox := prefer;
                    excludeBaseUris := Some ex2 |} !! key = Some ids2 →
  ∃ ids1,
    extractInboxes {| recipients := l; preferSharedInbox := prefer;
                      excludeBaseUris := Some ex1 |} !! key = Some ids1 ∧
    ids2 ⊆ ids1.
Proof.
  intros Hsub H2.
  set (p1 := {| recipients := l; preferSharedInbox := prefer;
                excludeBaseUris := Some ex1 |}).
  set (p2 := {| recipients := l; preferSharedInbox := prefer;
                excludeBaseUris := Some ex2 |}) in *.
  assert (Hkept : ∀ kv, kv ∈ omap (kept p2) l → kv ∈ omap (kept p1) l).
  { intros [k i]. rewrite !list_elem_of_omap.
    intros (r & Hr & (inbox & rid & Hc & Hid & Hex & Hk & Hi)%kept_Some).
    exists r. split; [done|]. apply kept_Some. exists inbox, rid.
    repeat split; try done. cbn [excludeBaseUris p1 p2] in *.
    destruct (is_excluded (Some ex1) inbox) eqn:Hex1; [|done].
    apply (is_excluded_mono ex1 ex2 inbox Hsub) in Hex1. congruence. }
  assert (Hsome : is_Some (extractInboxes p1 !! key)).
  { apply extractInboxes_is_Some.
    assert (Hin : is_Some (extractInboxes p2 !! key)) by (by exists ids2).
    apply extractInboxes_is_Some, list_elem_of_fmap in Hin as (kv & -> & Hin).
    apply list_elem_of_fmap. exists kv. split; [done|]. by apply Hkept. }
  destruct Hsome as [ids1 H1]. exists ids1. split; [done|].
  intros i Hi. apply (extractInboxes_elem p1 key ids1 H1), Hkept.
  by apply (extractInboxes_elem p2 key ids2 H2).
Qed.

End extractInboxes_exclusion.

Import SendEvents.

Section sendActivity_more.
Context `{SendEnv}.

Lemma keys_loop_completes_valid p ks st st' :
  (keys_loop p ks st).2 = inr st' → all_valid ks.
Proof.
  revert st. induction ks as [|k rest IH]; intros st; cbn [keys_loop]; [by constructor|].
  destruct (validateCryptoKey (privateKey k) "private") as [e|[]] eqn:Hk.
  { by rewrite bind_call_inl. }
  rewrite bind_call_inr. cbn [snd]. intros Hres. constructor; [done|].
  revert Hres.
  destruct (bool_decide (rsaKey st = None) && is_rsa k); [apply IH|].
  destruct (is_ed25519 k); [|apply IH].
  destruct (signObject _ _ _ _ _) as [e|signed].
  { by rewrite bind_call_inl. }
  rewrite bind_call_inr. cbn [snd]. apply IH.
Qed.

(** X4: when some key of the list does not validate, wherever it is in
    the list, [sendActivity] throws and has done nothing but validate keys
    and attach proofs: nothing was serialized, no request was signed or
    fetched, nothing was logged. *)
Theorem invalid_key_prevents_send (p : SendActivityParameters) k e :
  k ∈ keys p →
  validateCryptoKey (privateKey k) "private" = inl e →
  (∃ e', (sendActivity p).2 = inl e') ∧
  Forall (fun ev => is_validate ev || is_signObject ev = true) (sendActivity p).1.
Proof.
  intros Hk Hinvalid.
  assert (Hthrow : ∀ st, ∃ e', (keys_loop p (keys p) st).2 = inl e').
  { intros st. destruct (keys_loop p (keys p) st).2 as [e'|st'] eqn:Hres; [by exists e'|].
    apply keys_loop_completes_valid in Hres.
    eapply Forall_forall in Hres; [|exact Hk]. congruence. }
  unfold sendActivity.
  destruct (activity_id (activity p)) as [aid|]; [|split; [by eexists|constructor]].
  destruct (activity_actorId (activity p)); [|split; [by eexists|constructor]].
  destruct (length (keys p) <? 1)%nat; [split; [by eexists|constructor]|].
  destruct (Hthrow {| cur_activity := activity p; proofCreated := false;
                      rsaKey := None |}) as [e' He'].
  rewrite (bind_fst_inl _ _ _ He'). split; [by exists e'|]. apply keys_loop_events.
Qed.

Lemma omap_none {A B} (f : A → option B) (l : list A) :
  Forall (fun x => f x = None) l → omap f l = [].
Proof. induction 1 as [|x l Hx _ IH]; [done|]. cbn. by rewrite Hx. Qed.

Lemma loop_no_warnings p ks st : omap warning_of (keys_loop p ks st).1 = [].
Proof.
  apply omap_none. eapply Forall_impl; [apply keys_loop_events|]. by intros [].
Qed.

Ltac not_in_events Hin :=
  repeat (apply elem_of_cons in Hin as [Hin|Hin]; [discriminate Hin|]);
  by apply elem_of_nil in Hin.

Lemma send_signed_warnings p activityId st request :
  EvFetch request ∈ (send_signed p activityId st).1 →
  omap warning_of (send_signed p activityId st).1 =
  match rsaKey st with Some _ => [] | None => [NoLinkedDataSignature] end ++
  (if proofCreated st then [] else [NoProof]) ++
  match rsaKey st with Some _ => [] | None => [NoRequestSignature] end.
Proof.
  unfold send_signed.
  assert (Hdeliver : ∀ r, omap warning_of
            (response <- call (EvFetch r) (fetch r);;
             handle_response activityId (inbox p) response).1 = []).
  { intros r. destruct (fetch r) as [e|response]; [done|].
    rewrite bind_call_inr. unfold handle_response.
    by destruct (negb (ok response)). }
  destruct (toJsonLd _ _ _) as [e|compacted]; run_calls.
  { cbn. intros Hin. not_in_events Hin. }
  cbn [fst].
  destruct (rsaKey st) as [k|].
  - destruct (signJsonLd compacted (privateKey k) (keyId k) (contextLoader p))
      as [e|wrapped]; run_calls.
    { cbn. intros Hin. not_in_events Hin. }
    cbn [fst].
    destruct (signRequest (build_request (inbox p) (headers p) wrapped)
                          (privateKey k) (keyId k)) as [e|signed] eqn:Hsign.
    + destruct (proofCreated st); cbn; intros Hin; not_in_events Hin.
    + intros _. destruct (proofCreated st); cbn; by rewrite Hdeliver.
  - intros _. destruct (proofCreated st); cbn; by rewrite Hdeliver.
Qed.

(** A run in which the loop completes: what the loop leaves. *)
Lemma sendActivity_after_loop p :
  (∃ e, sendActivity p = ((sendActivity p).1, inl e) ∧
        Forall (fun ev => is_validate ev || is_signObject ev = true) (sendActivity p).1) ∨
  ∃ aid signed,
    activity_id (activity p) = Some aid ∧
    all_valid (keys p) ∧
    let loop := keys_loop p (keys p)
                  {| cur_activity := activity p; proofCreated := false; rsaKey := None |} in
    let st := loop_result false None (keys p) signed in
    (attach_proofs (documentLoader p) (contextLoader p)
       (filter (fun k => is_ed25519 k = true) (keys p)) (activity p)).2 = inr signed ∧
    filter (fun ev => is_validate ev = false) loop.1 =
      (attach_proofs (documentLoader p) (contextLoader p)
         (filter (fun k => is_ed25519 k = true) (keys p)) (activity p)).1 ∧
    filter (fun ev => is_validate ev = true) loop.1 = validations (keys p) ∧
    sendActivity p = (loop.1 ++ (send_signed p (href aid) st).1,
                      (send_signed p (href aid) st).2).
Proof.
  unfold sendActivity.
  destruct (activity_id (activity p)) as [aid|]; [|left; eexists; split; [done|constructor]].
  destruct (activity_actorId (activity p)); [|left; eexists; split; [done|constructor]].
  destruct (length (keys p) <? 1)%nat; [left; eexists; split; [done|constructor]|].
  set (st0 := {| cur_activity := activity p; proofCreated := false; rsaKey := None |}).
  destruct (keys_loop p (keys p) st0).2 as [e|st] eqn:Hres.
  - left. exists e. rewrite (bind_fst_inl _ _ _ Hres). split; [done|].
    apply keys_loop_events.
  - right. pose proof (keys_loop_completes_valid _ _ _ _ Hres) as Hvalid.
    destruct (keys_loop_layers p (keys p) (activity p) false None Hvalid) as [Htr Hst].
    fold st0 in Htr, Hst. rewrite Hres in Hst.
    destruct (attach_proofs _ _ _ _).2 as [e|signed] eqn:Hattach; [done|].
    simpl in Hst. injection Hst as ->.
    exists aid, signed. split; [done|]. split; [done|]. cbn zeta.
    split; [done|]. split; [done|]. split; [by eapply keys_loop_validates_all|].
    by rewrite (bind_fst_inr _ _ _ Hres).
Qed.

Lemma not_fetch_in_loop p request :
  Forall (fun ev => is_validate ev || is_signObject ev = true) (sendActivity p).1 →
  EvFetch request ∉ (sendActivity p).1.
Proof. intros Hall Hin. by eapply Forall_forall in Hall; [|exact Hin]. Qed.

(** X5: a send that gets as far as [fetch] has logged the warnings that
    its key list calls for, in this order: no Linked-Data signature when
    the list has no RSA key, no proof when it has no Ed25519 key, no request
    signature when it has no RSA key; and no other warning. *)
Theorem sendActivity_warnings (p : SendActivityParameters) request :
  EvFetch request ∈ (sendActivity p).1 →
  omap warning_of (sendActivity p).1 = expected_warnings (keys p).
Proof.
  intros Hin.
  destruct (sendActivity_after_loop p)
    as [(e & _ & Hloop)|(aid & signed & _ & _ & _ & _ & _ & Hrun)].
  { by apply not_fetch_in_loop with (request := request) in Hloop. }
  cbn zeta in Hrun. rewrite Hrun in Hin |- *. cbn [fst] in *.
  rewrite omap_app, loop_no_warnings. cbn [app].
  apply elem_of_app in Hin as [Hin|Hin].
  { pose proof (keys_loop_events p (keys p)
      {| cur_activity := activity p; proofCreated := false; rsaKey := None |}) as Hloop.
    by eapply Forall_forall in Hloop; [|exact Hin]. }
  rewrite (send_signed_warnings _ _ _ _ Hin). unfold loop_result, expected_warnings.
  cbn [rsaKey proofCreated orb].
  destruct (find is_rsa (keys p));
    by destruct (filter (fun k => is_ed25519 k = true) (keys p)).
Qed.

(** X6: when [fetch] itself rejects, [sendActivity] rejects with the same
    exception, and the fetch is the last thing it did: the body is not
    read and no error is logged. *)
Theorem fetch_rejection_propagates (p : SendActivityParameters) request e :
  EvFetch request ∈ (sendActivity p).1 →
  fetch request = inl e →
  (sendActivity p).2 = inl e ∧
  ∃ pre, (sendActivity p).1 = pre ++ [EvFetch request] ∧
         Forall (fun ev => is_fetch ev = false) pre.
Proof.
  intros Hin Hfetch.
  destruct (sendActivity_fetch_shape p request Hin) as (aid & pre & _ & Hpre & _ & Hrun).
  rewrite Hrun. unfold deliver. rewrite Hfetch, bind_call_inl. cbn [fst snd].
  split; [done|]. by exists pre.
Qed.

Lemma attach_proofs_keys dl cl eds a a' :
  (attach_proofs dl cl eds a).2 = inr a' →
  omap proof_key (attach_proofs dl cl eds a).1 = eds.
Proof.
  revert a. induction eds as [|k eds IH]; intros a; cbn [attach_proofs]; [done|].
  destruct (signObject a (privateKey k) (keyId k) dl cl) as [e|signed].
  { by rewrite bind_call_inl. }
  rewrite bind_call_inr. cbn [fst snd]. intros Hres. cbn. f_equal. by apply IH.
Qed.

Lemma omap_filter_irrelevant {A B} (f : A → option B) (P : A → Prop)
    `{!∀ x, Decision (P x)} (l : list A) :
  (∀ x, ¬ P x → f x = None) → omap f (filter P l) = omap f l.
Proof.
  intros Hf. induction l as [|x l IH]; [done|].
  destruct (decide (P x)) as [Hx|Hx].
  - rewrite filter_cons_True by done. cbn. by rewrite IH.
  - rewrite filter_cons_False by done. cbn. by rewrite (Hf x Hx).
Qed.

(** X7: when [sendActivity] returns normally, every key of the list was
    validated, once and in order, one proof was attached per Ed25519 key,
    in order, and the run ends with the fetch of a request whose response
    is [ok]. *)
Theorem sendActivity_success (p : SendActivityParameters) :
  (sendActivity p).2 = inr () →
  filter (fun ev => is_validate ev = true) (sendActivity p).1 = validations (keys p) ∧
  omap proof_key (sendActivity p).1 = filter (fun k => is_ed25519 k = true) (keys p) ∧
  ∃ pre request response,
    (sendActivity p).1 = pre ++ [EvFetch request] ∧
    fetch request = inr response ∧
    ok response = true.
Proof.
  intros Hok.
  destruct (sendActivity_after_loop p)
    as [(e & Hrun & _)|(aid & signed & _ & _ & Hattach & Hproofs & Hvalid & Hrun)].
  { rewrite Hrun in Hok. done. }
  cbn zeta in *. rewrite Hrun in Hok |- *. cbn [fst snd] in *.
  set (st := loop_result false None (keys p) signed) in *.
  pose proof (send_signed_events p (href aid) st) as Htail.
  split; [|split].
  - rewrite filter_app, Hvalid, (filter_none _ (send_signed _ _ _).1);
      [by rewrite app_nil_r|].
    eapply Forall_impl; [exact Htail|]. intros ev [Hev _]. by rewrite Hev.
  - rewrite omap_app, (omap_none proof_key (send_signed _ _ _).1), app_nil_r.
    + rewrite <- (omap_filter_irrelevant proof_key (fun ev => is_validate ev = false));
        [|by intros []].
      rewrite Hproofs. by eapply attach_proofs_keys.
    + eapply Forall_impl; [exact Htail|]. by intros [] [_ ?].
  - destruct (send_signed_shape p (href aid) st)
      as (pre & _ & [[e Hsend]|(request & _ & Hsend)]).
    { rewrite Hsend in Hok. done. }
    rewrite Hsend in Hok |- *. cbn [fst snd] in *. unfold deliver in *.
    destruct (fetch request) as [e|response] eqn:Hfetch; [done|].
    rewrite bind_call_inr in Hok |- *. cbn [fst snd] in *.
    unfold handle_response in *. destruct (ok response) eqn:Hresp; [|done].
    cbn. eexists _, request, response. split; [|done]. by rewrite app_assoc.
Qed.

End sendActivity_more.

Section property_more.
Import Property.
Import PropertyMore.
Context `{ResolverEnv}.
Variable property : PropertySchema.
Variable types : gmap string TypeSchema.
Variable getDocumentLoader : DocumentLoader.

Abbreviation x_fromJsonLd := (x_fromJsonLd property types).
Abbreviation fetchX := (fetchX property types getDocumentLoader).
Abbreviation cached_fragment := (cached_fragment property).
Abbreviation getX := (getX property types getDocumentLoader).
Abbreviation getXs := (getXs property types getDocumentLoader).
Abbreviation getXs_loop := (getXs_loop property types getDocumentLoader).
Abbreviation sweep := (sweep property types getDocumentLoader).
Abbreviation getXs_ref := (getXs_ref property types getDocumentLoader).

(** X8: on the same [this], options and world, an object that [getX]
    returns is the first one that [getXs] yields, after the same events;
    an exception that [getX] throws ends [getXs] before any yield, [this]
    unchanged. *)
Theorem getX_first_of_getXs (this : instance) (options : Options) (w : World) :
  (∀ o, outcome (getX this options w) = inr (Some o) →
        ∃ ys evs,
          yielded (getXs this options w) = o :: ys ∧
          events (getXs this options w) = events (getX this options w) ++ evs) ∧
  (∀ e, outcome (getX this options w) = inl e →
        getXs this options w =
          {| events := events (getX this options w); outcome := ([], Some e);
             this_after := this; world_after := world_after (getX this options w) |}).
Proof.
  unfold Property.getX, Property.getXs.
  destruct (field this) as [|v rest] eqn:Hfield; [by split|].
  cbn [length Property.getXs_loop]. rewrite Hfield. cbn [lookup list_lookup].
  destruct v as [u|o0].
  - destruct (fetchX this u options w) as [fetched w'].
    destruct fetched.2 as [e|[object|]] eqn:Hres; cbn [outcome events world_after].
    + split; [done|]. by intros e' [= <-].
    + split; [|done]. intros o [= <-]. unfold before, yielded.
      cbn [outcome events fst]. eauto.
    + split; done.
  - destruct (cached_fragment this 0) as [obj|].
    + destruct (x_fromJsonLd obj).2 as [e|object] eqn:Hres; cbn [outcome events world_after].
      * split; [done|]. by intros e' [= <-].
      * split; [|done]. intros o [= <-]. unfold before, yielded.
        cbn [outcome events fst]. eauto.
    + cbn [outcome events]. split; [|done]. intros o [= <-].
      unfold before, yielded. cbn [outcome events fst]. eauto.
Qed.

Lemma sweep_inline this options i slots w :
  Forall (fun v => is_inline v = true) slots →
  _cachedJsonLd this = None →
  sweep this options i slots w = ([], (omap inline_object slots, None), slots, w).
Proof.
  intros Hall Hc. revert i. induction Hall as [|v rest Hv _ IH]; intros i; [done|].
  destruct v as [u|o]; [done|]. cbn [Property.sweep].
  rewrite cached_fragment_no_cache by done. by rewrite IH.
Qed.

(** X9: when every slot holds an object and there is no cached document,
    [getXs] only reads: it yields the objects of the slots in order, emits
    no event and changes neither [this] nor the world. *)
Theorem getXs_resolved_is_read (this : instance) (options : Options) (w : World) :
  Forall (fun v => is_inline v = true) (field this) →
  _cachedJsonLd this = None →
  getXs this options w =
    {| events := []; outcome := (omap inline_object (field this), None);
       this_after := this; world_after := w |}.
Proof.
  intros Hall Hc. rewrite getXs_refines. unfold Property.getXs_ref.
  rewrite sweep_inline by done. by rewrite set_field_same.
Qed.




Lemma fetchX_loads this u options w :
  filter (fun ev => is_load ev = true) (fetchX this u options w).1.1 = [EvLoad (href u)].
Proof.
  destruct (fetchX_events property types getDocumentLoader this u options w)
    as (rest & -> & Hrest).
  rewrite filter_cons_True by done. f_equal. apply filter_none.
  eapply Forall_impl; [exact Hrest|]. intros ev ->. done.
Qed.

Lemma x_fromJsonLd_loads jsonLd :
  filter (fun ev => is_load ev = true) (x_fromJsonLd jsonLd).1 = [].
Proof.
  apply filter_none. eapply Forall_impl; [apply x_fromJsonLd_no_load|].
  intros ev ->. done.
Qed.

Lemma sweep_loads_in_order this options i slots w :
  let loads := filter (fun ev => is_load ev = true) (sweep this options i slots w).1.1.1 in
  let expected := (fun u => EvLoad (href u)) <$> references slots in
  loads `prefix_of` expected ∧
  ((sweep this options i slots w).1.1.2.2 = None → loads = expected).
Proof.
  revert i w. induction slots as [|[u|o] rest IH]; intros i w; cbn [Property.sweep].
  - done.
  - pose proof (fetchX_loads this u options w) as Hload.
    destruct (fetchX this u options w) as [fetched w']. cbn [fst] in Hload.
    unfold references. cbn [omap list_omap]. rewrite fmap_cons.
    fold (references rest).
    destruct fetched.2 as [e|[object|]].
    + cbn [fst snd]. rewrite Hload. split; [|done].
      by apply (prefix_cons _ []), prefix_nil.
    + destruct (IH (S i) w') as [Hpre Heq].
      destruct (sweep this options (S i) rest w') as [[[evs [ys e]] rest'] w''].
      cbn [fst snd] in *. rewrite filter_app, Hload. split.
      * by apply prefix_cons.
      * intros He. cbn. f_equal. by apply Heq.
    + destruct (IH (S i) w') as [Hpre Heq].
      destruct (sweep this options (S i) rest w') as [[[evs [ys e]] rest'] w''].
      cbn [fst snd] in *. rewrite filter_app, Hload. split.
      * by apply prefix_cons.
      * intros He. cbn. f_equal. by apply Heq.
  - unfold references. cbn [omap list_omap]. fold (references rest).
    destruct (cached_fragment this i) as [obj|].
    + pose proof (x_fromJsonLd_loads obj) as Hparse.
      destruct (x_fromJsonLd obj).2 as [e|object].
      * cbn [fst snd]. rewrite Hparse. split; [apply prefix_nil|done].
      * destruct (IH (S i) w) as [Hpre Heq].
        destruct (sweep this options (S i) rest w) as [[[evs [ys e]] rest'] w''].
        cbn [fst snd] in *. rewrite filter_app, Hparse. by split.
    + destruct (IH (S i) w) as [Hpre Heq].
      destruct (sweep this options (S i) rest w) as [[[evs [ys e]] rest'] w''].
      cbn [fst snd] in *. by split.
Qed.

(** X10: the loader calls of a run of [getXs] are those for the slots that
    hold a reference, one call each, in slot order; a run that throws stops
    somewhere in that list, and a run that does not throw goes through all
    of it. *)
Theorem getXs_loads_in_slot_order (this : instance) (options : Options) (w : World) :
  filter (fun ev => is_load ev = true) (events (getXs this options w))
    `prefix_of` ((fun u => EvLoad (href u)) <$> references (field this)) ∧
  (thrown (getXs this options w) = None →
   filter (fun ev => is_load ev = true) (events (getXs this options w)) =
   (fun u => EvLoad (href u)) <$> references (field this)).
Proof.
  rewrite getXs_refines. unfold thrown.
  destruct (getXs_ref_fields property types getDocumentLoader this options w)
    as (-> & -> & _).
  apply sweep_loads_in_order.
Qed.

(** X11: resolving the reference of the first slot changes what [xId]
    returns, from the URL of the reference to the [id] of the object that
    it resolved to. *)
Theorem xId_after_resolution (this : instance) (options : Options) (w : World) u rest o :
  field this = Reference u :: rest →
  outcome (getX this options w) = inr (Some o) →
  xId this = Some u ∧
  xId (this_after (getX this options w)) = object_id o.
Proof.
  intros Hfield. unfold xId, Property.getX. rewrite Hfield.
  destruct (fetchX this u options w) as [fetched w'].
  destruct fetched.2 as [e|[object|]]; cbn [outcome this_after]; try done.
  intros [= ->]. by split.
Qed.

End property_more.

Section emitOverride_facts.
Import Codegen.

Lemma emitOverride_loop_path types property start supers next fuel :
  path types start supers next →
  length supers ≤ fuel →
  emitOverride_loop types property fuel start =
  if existsb (declares property) supers then Some (inr "override")
  else emitOverride_loop types property (fuel - length supers) next.
Proof.
  intros Hpath. revert fuel.
  induction Hpath as [start|sup st supers next Hst Hpath IH]; intros fuel Hfuel.
  { cbn. by rewrite Nat.sub_0_r. }
  destruct fuel as [|fuel]; [simpl in Hfuel; lia|].
  cbn [emitOverride_loop existsb length Nat.sub]. rewrite Hst.
  destruct (declares property st); [done|]. cbn [orb].
  apply IH. simpl in Hfuel. lia.
Qed.

(** X13: in a schema where the supertypes of a type all exist and end with a
    type that extends nothing, [emitOverride] returns ["override"] exactly
    when one of these supertypes has a property of the same singular name,
    and [""] otherwise; the properties of the type itself play no part. *)
Theorem emitOverride_supertypes types property typeUri type supers fuel :
  types !! typeUri = Some type →
  path types (extends type) supers None →
  length supers ≤ fuel →
  emitOverride fuel typeUri types property =
  Some (inr (if existsb (declares property) supers then "override" else "")).
Proof.
  intros Htype Hpath Hfuel. unfold emitOverride. rewrite Htype.
  rewrite (emitOverride_loop_path _ _ _ _ _ _ Hpath Hfuel).
  destruct (existsb _ _); [done|]. by destruct (fuel - length supers).
Qed.

(** X14: when the chain of supertypes leads to a URI that is not a key of
    [types], [emitOverride] still returns ["override"] if a supertype before
    that point has the property, and throws a [TypeError] if none has. *)
Theorem emitOverride_missing_supertype types property typeUri type supers missing fuel :
  types !! typeUri = Some type →
  path types (extends type) supers (Some missing) →
  types !! missing = None →
  length supers < fuel →
  if existsb (declares property) supers
  then emitOverride fuel typeUri types property = Some (inr "override")
  else ∃ msg, emitOverride fuel typeUri types property = Some (inl (TypeError msg)).
Proof.
  intros Htype Hpath Hmissing Hfuel. unfold emitOverride. rewrite Htype.
  rewrite (emitOverride_loop_path _ _ _ _ _ _ Hpath) by lia.
  destruct (existsb _ _); [done|].
  destruct (fuel - length supers) as [|rest] eqn:Hrest; [lia|].
  cbn [emitOverride_loop]. rewrite Hmissing. by eexists.
Qed.

(** X15: when the supertype of a type lies in a set of types that extend
    each other and of which none has the property, the loop of
    [emitOverride] does not end: no number of iterations gives a result. *)
Theorem emitOverride_cycle types property (cycle : gset string) typeUri type sup :
  (∀ u, u ∈ cycle →
     ∃ st next, types !! u = Some st ∧ declares property st = false ∧
                extends st = Some next ∧ next ∈ cycle) →
  types !! typeUri = Some type →
  extends type = Some sup →
  sup ∈ cycle →
  ∀ fuel, emitOverride fuel typeUri types property = None.
Proof.
  intros Hcycle Htype Hext Hsup fuel. unfold emitOverride. rewrite Htype, Hext.
  clear Htype Hext. revert sup Hsup. induction fuel as [|fuel IH]; intros sup Hsup; [done|].
  destruct (Hcycle sup Hsup) as (st & next & Hst & Hdecl & Hnext & Hin).
  cbn [emitOverride_loop]. rewrite Hst, Hdecl, Hnext. by apply IH.
Qed.

End emitOverride_facts.

Section inspector_facts.
Import Codegen.
Variable Raw : Type.
Variable areAllScalarTypes : list string → bool.
Variable getFieldName : string → string.
Variable inherited : string → bool.

Abbreviation inspected := (inspected Raw).
Abbreviation entry := (entry Raw).
Abbreviation local_of := (local_of Raw areAllScalarTypes getFieldName).
Abbreviation inspect_property :=
  (inspect_property Raw areAllScalarTypes getFieldName inherited).
Abbreviation own_entry := (own_entry Raw areAllScalarTypes getFieldName).
Abbreviation getCustomInspectProxy :=
  (getCustomInspectProxy Raw areAllScalarTypes getFieldName inherited).

(** What the statements of one property do to a key: they set it to the
    property's own entry, or leave it. *)
Lemma inspect_property_lookup (this : inspected) (proxy : gmap string entry) p k :
  inspect_property this proxy p !! k = proxy !! k ∨
  ∃ e, own_entry this p = Some (k, e) ∧ inspect_property this proxy p !! k = Some e.
Proof.
  unfold Codegen.inspect_property, Codegen.own_entry.
  destruct (local_of this p) as [|x [|y l]] eqn:Hlocal; cbn [length].
  - destruct (functional p || singularAccessor p), (negb (functional p));
      rewrite ?andb_false_r; cbn; by left.
  - destruct (functional p) eqn:Hf; cbn [orb negb].
    + destruct (decide (singularName p = k)) as [<-|Hne].
      * right. eexists. split; [done|]. by rewrite lookup_insert_eq.
      * left. by rewrite lookup_insert_ne.
    + destruct (singularAccessor p) eqn:Hs.
      * rewrite lookup_insert_eq. cbn.
        destruct (decide (singularName p = k)) as [<-|Hne].
        -- right. eexists. split; [done|]. by rewrite lookup_insert_eq.
        -- left. by rewrite lookup_insert_ne.
      * cbn. destruct (bool_decide (is_Some (proxy !! singularName p))
                        || inherited (singularName p)); cbn; [by left|].
        destruct (decide (pluralName p = k)) as [<-|Hne].
        -- right. eexists. split; [done|]. by rewrite lookup_insert_eq.
        -- left. by rewrite lookup_insert_ne.
  - destruct (functional p) eqn:Hf; cbn [orb negb]; [by left|].
    replace (if singularAccessor p then proxy else proxy) with proxy
      by (by destruct (singularAccessor p)).
    cbn. destruct (decide (pluralName p = k)) as [<-|Hne].
    + right. eexists. split; [done|]. by rewrite lookup_insert_eq.
    + left. by rewrite lookup_insert_ne.
Qed.

Lemma foldl_inspect_sound (this : inspected) ps (proxy : gmap string entry) k e :
  foldl (inspect_property this) proxy ps !! k = Some e →
  proxy !! k = Some e ∨ ∃ p, p ∈ ps ∧ own_entry this p = Some (k, e).
Proof.
  revert proxy. induction ps as [|p ps IH]; intros proxy; cbn [foldl]; [by left|].
  intros [Hin|(q & Hq & Hown)]%IH.
  - destruct (inspect_property_lookup this proxy p k) as [Heq|(e' & Hown & Hset)].
    + left. by rewrite <- Heq.
    + right. exists p. split; [by left|]. congruence.
  - right. exists q. split; [by right|done].
Qed.

Lemma root_proxy_lookup (this : inspected) k e :
  root_proxy this !! k = Some e ↔
  k = "id" ∧ ∃ u, this_id this = Some u ∧ e = One (Wrapped (href u)).
Proof.
  unfold root_proxy. destruct (this_id this) as [u|].
  - rewrite lookup_singleton_Some. split.
    + intros [<- <-]. eauto.
    + intros (-> & u' & [= <-] & ->). done.
  - rewrite lookup_empty. split; [done|]. by intros (_ & u & [=] & _).
Qed.

(** X16: an entry of the inspection proxy is the [id] of the object, wrapped
    to print as a URL, or the own entry of a property of one of the classes:
    its only value under its singular name, or its non-empty list of values
    under its plural name. *)
Theorem inspect_proxy_sound classes (this : inspected) k e :
  getCustomInspectProxy classes this !! k = Some e →
  (k = "id" ∧ ∃ u, this_id this = Some u ∧ e = One (Wrapped (href u))) ∨
  ∃ p, p ∈ all_properties classes ∧ own_entry this p = Some (k, e).
Proof.
  revert k e. induction classes as [|type supers IH]; intros k e.
  { cbn. by rewrite lookup_empty. }
  cbn [Codegen.getCustomInspectProxy all_properties].
  unfold getCustomInspectProxy_of.
  intros [Hbase|(p & Hp & Hown)]%foldl_inspect_sound.
  - destruct (extends type).
    + destruct (IH _ _ Hbase) as [?|(p & Hp & Hown)]; [by left|].
      right. exists p. split; [|done]. apply elem_of_app. by left.
    + left. by apply root_proxy_lookup.
  - right. exists p. split; [|done]. apply elem_of_app. by right.
Qed.

Lemma inspect_property_fresh (this : inspected) (proxy : gmap string entry) p :
  proxy !! singularName p = None →
  inherited (singularName p) = false →
  inspect_property this proxy p =
  match own_entry this p with
  | Some (k, e) => <[k := e]> proxy
  | None => proxy
  end.
Proof.
  intros Hfresh Hown. unfold Codegen.inspect_property, Codegen.own_entry.
  destruct (local_of this p) as [|x [|y l]] eqn:Hlocal; cbn [length].
  - destruct (functional p || singularAccessor p), (negb (functional p));
      rewrite ?andb_false_r; by cbn.
  - destruct (functional p) eqn:Hf; cbn [orb negb]; [done|].
    destruct (singularAccessor p) eqn:Hs.
    + by rewrite lookup_insert_eq.
    + by rewrite Hfresh, Hown.
  - destruct (functional p) eqn:Hf; cbn [orb negb]; [done|].
    by destruct (singularAccessor p).
Qed.

Lemma rooted_proxy classes (this : inspected) :
  rooted classes →
  getCustomInspectProxy classes this =
  foldl (inspect_property this) (root_proxy this) (all_properties classes).
Proof.
  induction classes as [|type supers IH]; [done|].
  cbn [Codegen.getCustomInspectProxy all_properties]. unfold getCustomInspectProxy_of.
  rewrite foldl_app. destruct supers as [|super supers].
  - cbn [rooted]. by intros ->.
  - intros [Hext Hrooted]. rewrite <- IH by done.
    by destruct (extends type).
Qed.

Lemma own_entry_name (this : inspected) p k e :
  own_entry this p = Some (k, e) → k = singularName p ∨ k = pluralName p.
Proof.
  unfold Codegen.own_entry.
  destruct (local_of this p) as [|x [|y l]]; [done|..];
    repeat case_match; intros [= <- <-]; auto.
Qed.

Lemma foldl_inspect_fresh (this : inspected) ps (proxy : gmap string entry) k e :
  NoDup (property_names ps) →
  (∀ n, n ∈ property_names ps → inherited n = false) →
  (∀ n, n ∈ property_names ps → proxy !! n = None) →
  foldl (inspect_property this) proxy ps !! k = Some e ↔
  proxy !! k = Some e ∨ ∃ p, p ∈ ps ∧ own_entry this p = Some (k, e).
Proof.
  revert proxy. induction ps as [|p ps IH]; intros proxy Hnodup Hplain Hfresh; cbn [foldl].
  { split; [by left|]. intros [?|(p & ?%elem_of_nil & _)]; done. }
  unfold property_names in Hnodup, Hplain, Hfresh. cbn in Hnodup, Hplain, Hfresh.
  fold (property_names ps) in Hnodup, Hplain, Hfresh.
  apply NoDup_cons in Hnodup as [Hs [Hp Hnodup]%NoDup_cons].
  assert (Hsing : proxy !! singularName p = None) by (apply Hfresh; by left).
  assert (Hplur : proxy !! pluralName p = None) by (apply Hfresh; right; by left).
  assert (Hrest : ∀ n, n ∈ property_names ps → inherited n = false).
  { intros n Hn. apply Hplain. by do 2 right. }
  rewrite inspect_property_fresh; [|done|apply Hplain; by left].
  assert (Hstep : ∀ k0 e0, own_entry this p = Some (k0, e0) →
            proxy !! k0 = None ∧ k0 ∉ property_names ps).
  { intros k0 e0 [->| ->]%own_entry_name; (split; [done|]); [|done].
    intros Hin. apply Hs. by right. }
  destruct (own_entry this p) as [[k0 e0]|] eqn:Hown.
  - destruct (Hstep k0 e0 eq_refl) as [Hnone Hnotin].
    rewrite IH; [|done|done|].
    2:{ intros n Hn. rewrite lookup_insert_ne by (by intros ->).
        apply Hfresh. by do 2 right. }
    rewrite lookup_insert_Some. split.
    + intros [[[<- <-]|[Hne Hk]]|(q & Hq & Hq')].
      * right. exists p. split; [by left|done].
      * by left.
      * right. exists q. split; [by right|done].
    + intros [Hk|(q & [->|Hq]%elem_of_cons & Hq')].
      * left. right. split; [|done]. intros <-. congruence.
      * left. left. by simplify_eq.
      * right. eauto.
  - rewrite IH; [|done|done|].
    2:{ intros n Hn. apply Hfresh. by do 2 right. }
    split.
    + intros [?|(q & Hq & Hq')]; [by left|]. right. exists q. split; [by right|done].
    + intros [?|(q & [->|Hq]%elem_of_cons & Hq')]; [by left|congruence|].
      right. eauto.
Qed.

(** X17: when the classes end in a root class, the names of their
    properties are distinct from each other and from ["id"], and none of
    them is the name of a member that a plain object inherits, the entries
    of the proxy are exactly the [id], when the object has one, and the own
    entry of each property. *)
Theorem inspect_proxy_entries classes (this : inspected) k e :
  rooted classes →
  NoDup ("id" :: property_names (all_properties classes)) →
  (∀ n, n ∈ property_names (all_properties classes) → inherited n = false) →
  getCustomInspectProxy classes this !! k = Some e ↔
  (k = "id" ∧ ∃ u, this_id this = Some u ∧ e = One (Wrapped (href u))) ∨
  ∃ p, p ∈ all_properties classes ∧ own_entry this p = Some (k, e).
Proof.
  intros Hrooted [Hid Hnodup]%NoDup_cons Hplain.
  rewrite rooted_proxy by done. rewrite foldl_inspect_fresh; [|done|done|].
  - by rewrite root_proxy_lookup.
  - intros n Hn. destruct (root_proxy this !! n) as [e'|] eqn:Hroot; [|done].
    apply root_proxy_lookup in Hroot as [-> _]. done.
Qed.

(** X21: a property that is not functional, has no singular accessor and
    whose singular name is the name of a member that a plain object
    inherits gets no entry for a single value: the test
    [!(name in proxy)] fails, and the statements of the property leave the
    proxy as it was. *)
Theorem inspect_inherited_name (this : inspected) (proxy : gmap string entry) p x :
  functional p = false →
  singularAccessor p = false →
  inherited (singularName p) = true →
  local_of this p = [x] →
  inspect_property this proxy p = proxy.
Proof.
  intros Hf Hs Hin Hlocal. unfold Codegen.inspect_property.
  rewrite Hlocal, Hf, Hs, Hin. cbn [orb negb length Nat.ltb Nat.leb andb].
  by rewrite orb_true_r.
Qed.

(** X18: an object whose fields are all empty inspects as its [id] alone,
    or as nothing when it has none. *)
Theorem inspect_proxy_of_empty classes (this : inspected) :
  rooted classes →
  (∀ f, this_field this f = []) →
  getCustomInspectProxy classes this = root_proxy this.
Proof.
  intros Hrooted Hempty. rewrite rooted_proxy by done.
  induction (all_properties classes) as [|p ps IH] using rev_ind; [done|].
  rewrite foldl_app. cbn [foldl]. rewrite IH.
  unfold Codegen.inspect_property, Codegen.local_of. rewrite Hempty.
  destruct (areAllScalarTypes (range p)); cbn;
    destruct (functional p || singularAccessor p), (negb (functional p));
    rewrite ?andb_false_r; by cbn.
Qed.

End inspector_facts.

Section multibase_facts.
Import Multibase.
Variable Base : Type.
Variable new_Base : string → string → CodecFactory → string → Base.

Abbreviation names_of := (names_of Base new_Base).
Abbreviation codes_of := (codes_of Base new_Base).
Abbreviation base_of := (base_of Base new_Base).

Lemma foldl_insert_lookup {V} (key : row → string) (val : row → V) table
    (prev : gmap string V) t :
  NoDup (key <$> table) →
  t ∈ table →
  foldl (fun prev tupple => <[key tupple := val tupple]> prev) prev table !! key t
  = Some (val t).
Proof.
  revert prev. induction table as [|t0 table IH]; intros prev Hnodup Hin.
  { by apply elem_of_nil in Hin. }
  rewrite fmap_cons in Hnodup. apply NoDup_cons in Hnodup as [Hfresh Hnodup].
  cbn [foldl]. apply elem_of_cons in Hin as [->|Hin]; [|by apply IH].
  clear IH. assert (Hlater : ∀ prev0 : gmap string V,
    foldl (fun prev tupple => <[key tupple := val tupple]> prev) prev0 table !! key t0
    = prev0 !! key t0).
  { revert Hfresh. clear. induction table as [|t1 table IH]; intros Hfresh prev0; [done|].
    cbn [foldl]. rewrite IH.
    - apply lookup_insert_ne. intros Heq. apply Hfresh. rewrite fmap_cons, Heq. by left.
    - intros Hin. apply Hfresh. rewrite fmap_cons. by right. }
  by rewrite Hlater, lookup_insert_eq.
Qed.

Lemma foldl_insert_dom {V} (key : row → string) (val : row → V) table
    (prev : gmap string V) k :
  is_Some (foldl (fun prev tupple => <[key tupple := val tupple]> prev) prev table !! k) ↔
  is_Some (prev !! k) ∨ k ∈ key <$> table.
Proof.
  revert prev. induction table as [|t0 table IH]; intros prev; cbn [foldl].
  { rewrite fmap_nil. split; [by left|]. by intros [?|?%elem_of_nil]. }
  rewrite IH, fmap_cons, elem_of_cons, lookup_insert_is_Some. 
  destruct (decide (key t0 = k)) as [->|Hne]; naive_solver.
Qed.

Lemma names_and_codes table t :
  NoDup (row_name <$> table) →
  NoDup (row_code <$> table) →
  t ∈ table →
  names_of table !! row_name t = Some (base_of t) ∧
  codes_of table !! row_code t = Some (Some (base_of t)).
Proof.
  intros Hnames Hcodes Hin.
  assert (Hname : names_of table !! row_name t = Some (base_of t)).
  { unfold Multibase.names_of.
    by apply (foldl_insert_lookup row_name base_of table ∅ t). }
  split; [done|]. unfold Multibase.codes_of.
  rewrite (foldl_insert_lookup row_code (fun t0 => names_of table !! row_name t0)
             table ∅ t) by done.
  by rewrite Hname.
Qed.

Lemma constants_names_NoDup : NoDup (row_name <$> constants).
Proof. apply (bool_decide_unpack _). by vm_compute. Qed.

Lemma constants_codes_NoDup : NoDup (row_code <$> constants).
Proof. apply (bool_decide_unpack _). by vm_compute. Qed.

(** X19: every row of the table can be looked up both ways: [names] holds
    its base under its name and [codes] holds the same base under its code,
    no row having taken the place of another; and every code is a single
    character. *)
Theorem constants_registry t :
  t ∈ constants →
  names Base new_Base !! row_name t = Some (base_of t) ∧
  codes Base new_Base !! row_code t = Some (Some (base_of t)) ∧
  length (chars (row_code t)) = 1.
Proof.
  intros Hin.
  destruct (names_and_codes constants t constants_names_NoDup constants_codes_NoDup Hin)
    as [Hn Hc].
  split; [done|]. split; [done|].
  assert (Hall : Forall (fun t0 => length (chars (row_code t0)) = 1) constants).
  { apply (bool_decide_unpack _). by vm_compute. }
  by eapply Forall_forall in Hall.
Qed.

Lemma constants_alphabets_NoDup :
  Forall (fun t => NoDup (chars (row_alphabet t))) constants.
Proof. apply (bool_decide_unpack _). by vm_compute. Qed.

Lemma constants_alphabets_bits :
  forallb (fun t => match row_implementation t with
                    | rfc4648 bits => length (digits (row_alphabet t)) =? 2 ^ bits
                    | _ => true
                    end) constants = true.
Proof. by vm_compute. Qed.

(** X20: no alphabet of the table repeats a character, and the alphabet of
    a [rfc4648(bits)] row has, the padding character aside, exactly
    [2 ^ bits] characters. *)
Theorem constants_alphabets t :
  t ∈ constants →
  NoDup (chars (row_alphabet t)) ∧
  ∀ bits, row_implementation t = rfc4648 bits →
          length (digits (row_alphabet t)) = 2 ^ bits.
Proof.
  intros Hin. split.
  - pose proof constants_alphabets_NoDup as Hall.
    by eapply Forall_forall in Hall.
  - intros bits Himpl. pose proof constants_alphabets_bits as Hall.
    rewrite forallb_forall in Hall. specialize (Hall t).
    rewrite Himpl in Hall. apply Nat.eqb_eq, Hall. by apply list_elem_of_In.
Qed.

End multibase_facts.

Section more_examples.
Import SendEvents Samples.

Lemma extractInboxes_entries_witness :
  (is_Some (extractInboxes personal_inboxes !! "https://example.com/users/inbox") ↔
     ∃ r inbox rid,
       r ∈ recipients personal_inboxes ∧
       chosen_inbox (preferSharedInbox personal_inboxes) r = Some inbox ∧
       recipient_id r = Some rid ∧
       is_excluded (excludeBaseUris personal_inboxes) inbox = false ∧
       href inbox = "https://example.com/users/inbox") ∧
  ∀ ids, extractInboxes personal_inboxes !! "https://example.com/users/inbox" = Some ids →
    ids ≠ ∅ ∧
    ∀ i, i ∈ ids ↔
         ∃ r inbox rid,
           r ∈ recipients personal_inboxes ∧
           chosen_inbox (preferSharedInbox personal_inboxes) r = Some inbox ∧
           recipient_id r = Some rid ∧
           is_excluded (excludeBaseUris personal_inboxes) inbox = false ∧
           href inbox = "https://example.com/users/inbox" ∧ href rid = i.
Proof.
  apply (extractInboxes_entries personal_inboxes "https://example.com/users/inbox").
Defined.

Lemma extractInboxes_same_recipients_witness :
  extractInboxes {| recipients := [alice; carol]; preferSharedInbox := Some true;
                    excludeBaseUris := None |} =
  extractInboxes {| recipients := [carol; alice; carol]; preferSharedInbox := Some true;
                    excludeBaseUris := None |}.
Proof.
  apply (extractInboxes_same_recipients [alice; carol] [carol; alice; carol]).
  intros r. rewrite !elem_of_cons. tauto.
Defined.

Lemma extractInboxes_more_exclusions_witness :
  ∃ ids1,
    extractInboxes {| recipients := [carol; dave]; preferSharedInbox := Some true;
                      excludeBaseUris := Some [] |}
      !! "https://example.com/inbox" = Some ids1 ∧
    ({[ "https://example.com/carol" ]} : gset string) ⊆ ids1.
Proof.
  apply (extractInboxes_more_exclusions [carol; dave] (Some true) []
           [mkURL "https://other.example/" "https://other.example"]).
  - intros u Hu. by apply elem_of_nil in Hu.
  - rewrite extractInboxes_shared. apply lookup_singleton_eq.
Defined.

End more_examples.

Section more_send_examples.
Import SendEvents Samples.
#[local] Existing Instance sample_env.

Lemma invalid_key_prevents_send_witness :
  (∃ e', (sendActivity interleaved_send).2 = inl e') ∧
  Forall (fun ev => is_validate ev || is_signObject ev = true)
         (sendActivity interleaved_send).1.
Proof.
  apply (invalid_key_prevents_send interleaved_send public_key
           (TypeError "The key is not a private key.")).
  - apply list_elem_of_further, list_elem_of_here.
  - reflexivity.
Defined.

Lemma sendActivity_warnings_witness :
  omap warning_of (sendActivity layered_send).1 = expected_warnings (keys layered_send).
Proof.
  apply (sendActivity_warnings layered_send layered_request).
  rewrite layered_send_run. cbn [fst].
  do 7 apply list_elem_of_further. apply list_elem_of_here.
Defined.

Lemma sendActivity_success_witness :
  filter (fun ev => is_validate ev = true) (sendActivity layered_send).1
    = validations (keys layered_send) ∧
  omap proof_key (sendActivity layered_send).1
    = filter (fun k => is_ed25519 k = true) (keys layered_send) ∧
  ∃ pre request response,
    (sendActivity layered_send).1 = pre ++ [EvFetch request] ∧
    fetch request = inr response ∧
    ok response = true.
Proof.
  apply (sendActivity_success layered_send).
  rewrite layered_send_run. reflexivity.
Defined.

End more_send_examples.

Section offline_examples.
Import SendEvents Samples.
#[local] Existing Instance offline_env.

Example offline_send_run :
  sendActivity offline_send =
  ([EvValidate (privateKey ed_key) "private";
    EvSignObject offline_activity ed_key;
    EvToJsonLd ({| sample_id := sample_id sample_activity;
                   sample_actor := sample_actor sample_activity;
                   sample_proofs := ["https://example.com/key2"] |}
                : @Activity offline_env);
    EvWarn NoLinkedDataSignature "https://example.com/activity" (logged_keys [ed_key]);
    EvWarn NoRequestSignature "https://example.com/inbox" (logged_keys [ed_key]);
    EvFetch offline_request],
   inl (Error "connection refused")).
Proof. vm_compute. reflexivity. Qed.

Lemma fetch_rejection_propagates_witness :
  (sendActivity offline_send).2 = inl (Error "connection refused") ∧
  ∃ pre, (sendActivity offline_send).1 = pre ++ [EvFetch offline_request] ∧
         Forall (fun ev => is_fetch ev = false) pre.
Proof.
  apply (fetch_rejection_propagates offline_send offline_request).
  - rewrite offline_send_run. cbn [fst].
    do 5 apply list_elem_of_further. apply list_elem_of_here.
  - reflexivity.
Defined.

End offline_examples.

Section more_property_examples.
Import Property PropertyMore Samples.
#[local] Existing Instance sample_resolver.

Lemma getX_first_of_getXs_witness :
  ∃ ys evs,
    yielded (getXs actor_property sample_types sample_loader three_references
               suppressing []) = person "https://example.com/a" :: ys ∧
    events (getXs actor_property sample_types sample_loader three_references
              suppressing []) =
    events (getX actor_property sample_types sample_loader three_references
              suppressing []) ++ evs.
Proof.
  apply (proj1 (getX_first_of_getXs actor_property sample_types sample_loader
                  three_references suppressing [])).
  vm_compute. reflexivity.
Defined.

Lemma getXs_resolved_is_read_witness :
  getXs actor_property sample_types sample_loader resolved_slots propagating [] =
    {| events := [];
       outcome := ([person "https://example.com/a"; anonymous], None);
       this_after := resolved_slots; world_after := [] |}.
Proof.
  apply (getXs_resolved_is_read actor_property sample_types sample_loader
           resolved_slots propagating []).
  - repeat constructor.
  - reflexivity.
Defined.


Lemma xId_after_resolution_witness :
  xId one_reference = Some (example_url "https://example.com/a") ∧
  xId (this_after (getX actor_property sample_types sample_loader one_reference
                     suppressing []))
  = object_id (person "https://example.com/a").
Proof.
  apply (xId_after_resolution actor_property sample_types sample_loader
           one_reference suppressing [] (example_url "https://example.com/a") []).
  - reflexivity.
  - vm_compute. reflexivity.
Defined.

End more_property_examples.

Section codegen_examples.
Import Codegen Samples.

Lemma emitOverride_supertypes_witness :
  emitOverride 2 "as:Create" schema_types actor_schema = Some (inr "override").
Proof.
  apply (emitOverride_supertypes schema_types actor_schema "as:Create" Create_type
           [Activity_type; Object_type] 2).
  - reflexivity.
  - apply path_super; [reflexivity|]. apply path_super; [reflexivity|]. apply path_here.
  - cbn [length]. lia.
Defined.

(** The type that declares the property does not override it. *)
Example emitOverride_declaring_type :
  emitOverride 5 "as:Activity" schema_types actor_schema = Some (inr "").
Proof. reflexivity. Qed.

Lemma emitOverride_missing_supertype_witness :
  ∃ msg, emitOverride 1 "as:Orphan" schema_types actor_schema
         = Some (inl (TypeError msg)).
Proof.
  apply (emitOverride_missing_supertype schema_types actor_schema "as:Orphan"
           Orphan_type [] "as:Nowhere" 1).
  - reflexivity.
  - apply path_here.
  - reflexivity.
  - cbn [length]. lia.
Defined.

Lemma emitOverride_cycle_witness :
  emitOverride 1000 "as:Ping" schema_types actor_schema = None.
Proof.
  apply (emitOverride_cycle schema_types actor_schema {[ "as:Ping"; "as:Pong" ]}
           "as:Ping" Ping_type "as:Pong").
  - intros u [->%elem_of_singleton| ->%elem_of_singleton]%elem_of_union.
    + exists Ping_type, "as:Pong".
      split; [reflexivity|split; [reflexivity|split; [reflexivity|set_solver]]].
    + exists Pong_type, "as:Ping".
      split; [reflexivity|split; [reflexivity|split; [reflexivity|set_solver]]].
  - reflexivity.
  - reflexivity.
  - set_solver.
Defined.

Example sample_proxy_entries :
  sample_proxy !! "id" = Some (One (Wrapped "https://example.com/create")) ∧
  sample_proxy !! "actor" = Some (One (Wrapped "https://example.com/alice")) ∧
  sample_proxy !! "actors" = None ∧
  sample_proxy !! "name" = None ∧
  sample_proxy !! "names" = Some (Many [Plain (FOther "first"); Plain (FOther "second")]) ∧
  sample_proxy !! "published" = None.
Proof. repeat split; by vm_compute. Qed.

Lemma inspect_proxy_sound_witness :
  ("actor" = "id" ∧
   ∃ u, this_id sample_create = Some u ∧
        (One (Wrapped "https://example.com/alice") : entry string)
        = One (Wrapped (href u))) ∨
  ∃ p, p ∈ all_properties [Create_type; Activity_type; Object_type] ∧
       own_entry string sample_scalar sample_fieldName sample_create p
       = Some ("actor", One (Wrapped "https://example.com/alice")).
Proof.
  apply (inspect_proxy_sound string sample_scalar sample_fieldName sample_inherited
           [Create_type; Activity_type; Object_type] sample_create).
  apply sample_proxy_entries.
Defined.

Lemma inspect_proxy_entries_witness :
  sample_proxy !! "names" = Some (Many [Plain (FOther "first"); Plain (FOther "second")]) ↔
  ("names" = "id" ∧
   ∃ u, this_id sample_create = Some u ∧
        (Many [Plain (FOther "first"); Plain (FOther "second")] : entry string)
        = One (Wrapped (href u))) ∨
  ∃ p, p ∈ all_properties [Create_type; Activity_type; Object_type] ∧
       own_entry string sample_scalar sample_fieldName sample_create p
       = Some ("names", Many [Plain (FOther "first"); Plain (FOther "second")]).
Proof.
  apply (inspect_proxy_entries string sample_scalar sample_fieldName sample_inherited
           [Create_type; Activity_type; Object_type] sample_create).
  - cbn. repeat split; discriminate.
  - apply (bool_decide_unpack _). by vm_compute.
  - apply Forall_forall. repeat constructor.
Defined.

Lemma inspect_inherited_name_witness :
  inspect_property string sample_scalar sample_fieldName sample_inherited
    built_thing ∅ constructor_schema = ∅.
Proof.
  apply (inspect_inherited_name string sample_scalar sample_fieldName sample_inherited
           built_thing ∅ constructor_schema (Plain (FOther "factory")));
    reflexivity.
Defined.

Lemma inspect_proxy_of_empty_witness :
  getCustomInspectProxy string sample_scalar sample_fieldName sample_inherited
    [Create_type; Activity_type; Object_type] blank_create = root_proxy blank_create.
Proof.
  apply (inspect_proxy_of_empty string sample_scalar sample_fieldName sample_inherited
           [Create_type; Activity_type; Object_type] blank_create).
  - cbn. repeat split; discriminate.
  - reflexivity.
Defined.

End codegen_examples.

Section multibase_examples.
Import Multibase Samples.

Lemma base58btc_in_constants : base58btc ∈ constants.
Proof. do 17 apply list_elem_of_further. apply list_elem_of_here. Qed.

Lemma base32pad_in_constants : base32pad ∈ constants.
Proof. do 12 apply list_elem_of_further. apply list_elem_of_here. Qed.

Lemma constants_registry_witness :
  names row sample_Base !! "base58btc" = Some base58btc ∧
  codes row sample_Base !! "z" = Some (Some base58btc) ∧
  length (chars "z") = 1.
Proof.
  apply (constants_registry row sample_Base base58btc). apply base58btc_in_constants.
Defined.

Lemma constants_alphabets_witness :
  NoDup (chars (row_alphabet base32pad)) ∧
  ∀ bits, row_implementation base32pad = rfc4648 bits →
          length (digits (row_alphabet base32pad)) = 2 ^ bits.
Proof. apply (constants_alphabets base32pad). apply base32pad_in_constants. Defined.

End multibase_examples.
